(** * cf-mgmt: role-membership reconciliation (packages [user] and [space])

    A shallow embedding of the Go code that synchronises Cloud Foundry org
    and space roles with the configuration, and the properties stated about
    it.

    Conventions of the embedding:
    - every collaborator reached through an interface (the CF client, the
      org manager, the UAA manager, the configuration reader and the LDAP
      group resolver) is one deterministic [World]: its answer to a call is a
      function of the calls made before it and of the call itself;
    - the calls made are recorded, oldest first, in the [calls] field of the
      state, so that "no remove call is issued" or "the org association
      comes first" are statements on that list;
    - Go maps are references.  The UAA user map is shared between all the
      reconciliations of a run and is written to, so it lives in a heap of
      map objects and is passed around as a location.  The role-user map is
      local to one [SyncUsers] call; it is threaded through the steps that
      delete from it;
    - a nil map reads as the empty map;
    - [lo.G] logging has no effect on the results and is left out. *)

From Stdlib Require Import Ascii String NArith.
From stdpp Require Import base strings list gmap fin_maps.

Local Open Scope string_scope.
Local Open Scope list_scope.

(* ------------------------------------------------------------------ *)
(** ** Strings: [strings.ToLower], [strings.Contains] *)

(** ASCII case folding of one byte.  Go folds all of Unicode; on ASCII
    names, which is what the proofs below evaluate it on, the two agree,
    and no theorem depends on more than the function being fixed. *)
Definition lowerByte (c : ascii) : ascii :=
  let n := N_of_ascii c in
  if ((65 <=? n) && (n <=? 90))%N then ascii_of_N (n + 32) else c.

Fixpoint ToLower (s : string) : string :=
  match s with
  | EmptyString => EmptyString
  | String c rest => String (lowerByte c) (ToLower rest)
  end.

Fixpoint HasPrefix (s prefix : string) : bool :=
  match prefix, s with
  | EmptyString, _ => true
  | String _ _, EmptyString => false
  | String p ps, String c cs => bool_decide (p = c) && HasPrefix cs ps
  end.

Fixpoint Contains (s substr : string) : bool :=
  HasPrefix s substr
  || match s with
     | EmptyString => false
     | String _ rest => Contains rest substr
     end.

(* ------------------------------------------------------------------ *)
(** ** Data of the collaborators *)

(** [cfclient.User], the two fields the code reads. *)
Record CFUser := { User_Username : string; User_Guid : string }.

(** [cfclient.Space], the fields the code reads or fills in. *)
Record Space := {
  Space_Name : string;
  Space_Guid : string;
  Space_OrganizationGuid : string;
  Space_AllowSSH : bool
}.

(** [cfclient.Org]. *)
Record Org := { Org_Name : string; Org_Guid : string }.

(** [uaaclient.User], the fields [SyncSamlUsers] fills in. *)
Record UaaUser := {
  Uaa_Username : string;
  Uaa_Emails : list string;
  Uaa_ExternalID : string;
  Uaa_Origin : string
}.

(** A member identity as the group resolver returns it. *)
Record IdentityRecord := {
  ir_username : string;
  ir_identifier : string;
  ir_email : string;
  ir_origin : string
}.

(** [config.UserMgmt]. *)
Record UserMgmt := {
  UM_LDAPUsers : list string;
  UM_Users : list string;
  UM_SamlUsers : list string
}.

(** [config.SpaceConfig].  The configuration package is not part of the
    sources at hand: the results of its methods [GetDeveloperGroups],
    [GetManagerGroups] and [GetAuditorGroups] are carried as fields. *)
Record SpaceConfig := {
  SC_Org : string;
  SC_Space : string;
  SC_Developer : UserMgmt;
  SC_Manager : UserMgmt;
  SC_Auditor : UserMgmt;
  SC_GetDeveloperGroups : list string;
  SC_GetManagerGroups : list string;
  SC_GetAuditorGroups : list string;
  SC_RemoveUsers : bool
}.

(** [config.OrgConfig], with the same treatment of the group getters. *)
Record OrgConfig := {
  OC_Org : string;
  OC_BillingManager : UserMgmt;
  OC_Manager : UserMgmt;
  OC_Auditor : UserMgmt;
  OC_GetBillingManagerGroups : list string;
  OC_GetManagerGroups : list string;
  OC_GetAuditorGroups : list string;
  OC_RemoveUsers : bool
}.

(** The six roles a binding can be for. *)
Inductive Role :=
| SpaceAuditor | SpaceDeveloper | SpaceManager
| OrgAuditor | OrgBillingManager | OrgManager.

Global Instance Role_eq_dec : EqDecision Role.
Proof. solve_decision. Defined.

(* ------------------------------------------------------------------ *)
(** ** Calls to the collaborators *)

(** One constructor per interface method, the per-role methods of the CF
    client being indexed by the role: [ClientList SpaceAuditor g] is
    [Client.ListSpaceAuditors(g)], [ClientAssociateByUsername OrgManager g u]
    is [Client.AssociateOrgManagerByUsername(g, u)], and so on. *)
Inductive call :=
| ClientList (r : Role) (guid : string)
| ClientAssociateByUsername (r : Role) (guid userName : string)
| ClientRemoveByUsername (r : Role) (guid userName : string)
| ClientListOrgUsers (orgGUID : string)
| ClientAssociateOrgUserByUsername (orgGUID userName : string)
| ClientRemoveOrgUserByUsername (orgGUID userName : string)
| ClientListSpacesByQuery (orgGUID : string)
| OrgMgrFindOrg (orgName : string)
| OrgMgrGetOrgGUID (orgName : string)
| UAAMgrListUsers
| UAAMgrCreateExternalUser (userName userEmail externalID origin : string)
| CfgGetOrgConfigs
| CfgGetSpaceConfigs
| LdapResolveMembers (groupNames : list string).

(** What a successful call returns. *)
Definition resp (c : call) : Type :=
  match c with
  | ClientList _ _ => list CFUser
  | ClientListOrgUsers _ => list CFUser
  | ClientListSpacesByQuery _ => list Space
  | OrgMgrFindOrg _ => Org
  | OrgMgrGetOrgGUID _ => string
  | UAAMgrListUsers => gmap string UaaUser
  | CfgGetOrgConfigs => list OrgConfig
  | CfgGetSpaceConfigs => list SpaceConfig
  | LdapResolveMembers _ => list IdentityRecord
  | _ => unit
  end.

(** Go errors: what a collaborator reports, [fmt.Errorf], [errors.Wrap],
    and the runtime panic of an assignment into a nil map. *)
Inductive error :=
| RemoteError (msg : string)
| Errorf (msg : string)
| Wrap (e : error) (msg : string)
| NilMapWrite.

Inductive result (A : Type) :=
| Ok (a : A)
| Err (e : error).
Arguments Ok {A} a.
Arguments Err {A} e.


(** The collaborators: the answer to a call, given the calls made so far. *)
Definition World := ∀ (history : list call) (c : call), result (resp c).

(* ------------------------------------------------------------------ *)
(** ** State and the monad of the embedding *)

Definition loc := nat.

Record state := {
  calls : list call;
  heap : list (gmap string UaaUser)
}.

Definition M (A : Type) : Type := state → result A * state.

Global Instance M_ret : MRet M := λ A a s, (Ok a, s).

Global Instance M_bind : MBind M := λ A B f m s,
  match m s with
  | (Ok a, s') => f a s'
  | (Err e, s') => (Err e, s')
  end.

Definition fail {A} (e : error) : M A := λ s, (Err e, s).

(** [if err != nil { return errors.Wrap(err, msg) }] around a step. *)
Definition wrap {A} (m : M A) (msg : string) : M A := λ s,
  match m s with
  | (Err e, s') => (Err (Wrap e msg), s')
  | r => r
  end.

(** A step whose error the caller inspects instead of returning it. *)
Definition attempt {A} (m : M A) : M (result A) := λ s,
  let '(r, s') := m s in (Ok r, s').

(** Calling a collaborator: the world answers from the history, and the
    call is appended to it. *)
Definition perform (w : World) (c : call) : M (resp c) := λ s,
  (w (calls s) c, {| calls := calls s ++ [c]; heap := heap s |}).

(** A map object comes into being. *)
Definition newMap (v : gmap string UaaUser) : M loc := λ s,
  (Ok (length (heap s)), {| calls := calls s; heap := heap s ++ [v] |}).

(** Reading through a map reference; a nil map reads as empty. *)
Definition mapAt (s : state) (l : loc) : gmap string UaaUser :=
  default ∅ (heap s !! l).

Definition readMap (l : loc) : M (gmap string UaaUser) := λ s,
  (Ok (mapAt s l), s).

(** [uaaUsers[k] = v]: an update in place of the object itself. *)
Definition writeEntry (l : loc) (k : string) (v : UaaUser) : M unit := λ s,
  match heap s !! l with
  | Some mp => (Ok tt, {| calls := calls s; heap := <[l := <[k := v]> mp]> (heap s) |})
  | None => (Err NilMapWrite, s)
  end.

(* ------------------------------------------------------------------ *)
(** ** Package [space] *)

Module space.

(** [space.DefaultManager]: its collaborators and the dry-run flag. *)
Record DefaultManager := {
  Remote : World;
  Peek : bool
}.

Definition ListSpaces (m : DefaultManager) (orgGUID : string) : M (list Space) :=
  perform (Remote m) (ClientListSpacesByQuery orgGUID).

(** The loop of [FindSpace]: the first space of that name. *)
Fixpoint firstNamed (spaces : list Space) (spaceName : string) : option Space :=
  match spaces with
  | [] => None
  | theSpace :: rest =>
      if bool_decide (Space_Name theSpace = spaceName) then Some theSpace
      else firstNamed rest spaceName
  end.

Definition FindSpace (m : DefaultManager) (orgName spaceName : string) : M Space :=
  orgGUID ← perform (Remote m) (OrgMgrGetOrgGUID orgName);
  spaces ← ListSpaces m orgGUID;
  match firstNamed spaces spaceName with
  | Some theSpace => mret theSpace
  | None =>
      if Peek m then
        mret {| Space_Name := spaceName;
                Space_Guid := spaceName +:+ "-dry-run-space-guid";
                Space_OrganizationGuid := orgName +:+ "-dry-run-org-guid";
                Space_AllowSSH := false |}
      else
        fail (Errorf ("space [" +:+ spaceName +:+ "] not found in org ["
                      +:+ orgName +:+ "]"))
  end.

End space.

(* ------------------------------------------------------------------ *)
(** ** Package [user]: the role operations *)

(** [user.DefaultManager].  [LdapOrigin] is [m.LdapConfig.Origin]. *)
Record DefaultManager := {
  Remote : World;
  SpaceMgr : space.DefaultManager;
  Peek : bool;
  LdapOrigin : string
}.

(** [UpdateUsersInput].  Its three function fields are always filled with
    the list, remove and associate methods of one role; [Binding] names that
    role and [ListUsers], [RemoveUser] and [AddUser] below select the
    method. *)
Record UpdateUsersInput := {
  SpaceGUID : string;
  OrgGUID : string;
  LdapUsers : list string;
  LdapGroupNames : list string;
  SpaceName : string;
  OrgName : string;
  Users : list string;
  SamlUsers : list string;
  RemoveUsers_flag : bool;
  Binding : Role
}.

Definition isSpaceRole (r : Role) : bool :=
  match r with
  | SpaceAuditor | SpaceDeveloper | SpaceManager => true
  | _ => false
  end.

(** The GUID a role's client methods are called with: [input.SpaceGUID] for
    the space roles, [input.OrgGUID] for the org roles. *)
Definition targetGUID (input : UpdateUsersInput) : string :=
  if isSpaceRole (Binding input) then SpaceGUID input else OrgGUID input.

(** The marker the list methods look for under dry-run. *)
Definition dryRunMarker (r : Role) : string :=
  if isSpaceRole r then "dry-run-space-guid" else "dry-run-org-guid".

Definition userListToMap (users : list CFUser) : gmap string string :=
  foldl (λ userMap user, <[ToLower (User_Username user) := User_Guid user]> userMap)
        ∅ users.

(** [ListSpaceAuditors], [ListSpaceDevelopers], [ListSpaceManagers],
    [ListOrgAuditors], [ListOrgBillingManagers], [ListOrgManagers]. *)
Definition ListRole (r : Role) (m : DefaultManager) (guid : string)
  : M (gmap string string) :=
  if Peek m && Contains guid (dryRunMarker r) then mret ∅
  else users ← perform (Remote m) (ClientList r guid);
       mret (userListToMap users).

Definition ListSpaceAuditors := ListRole SpaceAuditor.
Definition ListSpaceDevelopers := ListRole SpaceDeveloper.
Definition ListSpaceManagers := ListRole SpaceManager.
Definition ListOrgAuditors := ListRole OrgAuditor.
Definition ListOrgBillingManagers := ListRole OrgBillingManager.
Definition ListOrgManagers := ListRole OrgManager.

(** [listSpaceAuditors] ... [listOrgManagers]: the same on the binding's
    GUID (and a debug line). *)
Definition ListUsers (m : DefaultManager) (input : UpdateUsersInput)
  : M (gmap string string) :=
  ListRole (Binding input) m (targetGUID input).

Definition AddUserToOrg (m : DefaultManager) (userName : string)
  (input : UpdateUsersInput) : M unit :=
  if Peek m then mret tt
  else perform (Remote m) (ClientAssociateOrgUserByUsername (OrgGUID input) userName).

(** [AssociateSpaceAuditor] ... [AssociateOrgManager]. *)
Definition AssociateRole (r : Role) (m : DefaultManager)
  (input : UpdateUsersInput) (userName : string) : M unit :=
  AddUserToOrg m userName input;;
  if Peek m then mret tt
  else perform (Remote m)
         (ClientAssociateByUsername r
            (if isSpaceRole r then SpaceGUID input else OrgGUID input) userName).

Definition AssociateSpaceAuditor := AssociateRole SpaceAuditor.
Definition AssociateSpaceDeveloper := AssociateRole SpaceDeveloper.
Definition AssociateSpaceManager := AssociateRole SpaceManager.
Definition AssociateOrgAuditor := AssociateRole OrgAuditor.
Definition AssociateOrgBillingManager := AssociateRole OrgBillingManager.
Definition AssociateOrgManager := AssociateRole OrgManager.

Definition AddUser (m : DefaultManager) (input : UpdateUsersInput)
  (userName : string) : M unit :=
  AssociateRole (Binding input) m input userName.

(** [RemoveSpaceAuditor] ... [RemoveOrgManager]. *)
Definition RemoveRole (r : Role) (m : DefaultManager)
  (input : UpdateUsersInput) (userName : string) : M unit :=
  if Peek m then mret tt
  else perform (Remote m)
         (ClientRemoveByUsername r
            (if isSpaceRole r then SpaceGUID input else OrgGUID input) userName).

Definition RemoveSpaceAuditor := RemoveRole SpaceAuditor.
Definition RemoveSpaceDeveloper := RemoveRole SpaceDeveloper.
Definition RemoveSpaceManager := RemoveRole SpaceManager.
Definition RemoveOrgAuditor := RemoveRole OrgAuditor.
Definition RemoveOrgBillingManager := RemoveRole OrgBillingManager.
Definition RemoveOrgManager := RemoveRole OrgManager.

Definition RemoveUser (m : DefaultManager) (input : UpdateUsersInput)
  (userName : string) : M unit :=
  RemoveRole (Binding input) m input userName.

(* ------------------------------------------------------------------ *)
(** ** Package [user]: the reconciliation of one binding *)

(** The body of the loop of [SyncInternalUsers]. *)
Fixpoint SyncInternalUsers_loop (m : DefaultManager) (users : list string)
  (roleUsers : gmap string string) (uaaUsers : loc) (input : UpdateUsersInput)
  : M (gmap string string) :=
  match users with
  | [] => mret roleUsers
  | userID :: rest =>
      let lowerUserID := ToLower userID in
      directory ← readMap uaaUsers;
      match directory !! lowerUserID with
      | None =>
          fail (Errorf ("user " +:+ lowerUserID +:+
                 " doesn't exist in cloud foundry, so must add internal user first"))
      | Some _ =>
          match roleUsers !! lowerUserID with
          | None =>
              AddUser m input userID;;
              SyncInternalUsers_loop m rest roleUsers uaaUsers input
          | Some _ =>
              SyncInternalUsers_loop m rest (delete lowerUserID roleUsers) uaaUsers input
          end
      end
  end.

(** [SyncInternalUsers]; the result is the role-user map as the deletions
    leave it. *)
Definition SyncInternalUsers (m : DefaultManager) (roleUsers : gmap string string)
  (uaaUsers : loc) (input : UpdateUsersInput) : M (gmap string string) :=
  SyncInternalUsers_loop m (Users input) roleUsers uaaUsers input.

(** The second half of the loop body of [SyncSamlUsers], shared by the
    principal found in the directory and the one just created. *)
Definition samlAddOrMark (m : DefaultManager) (userEmail : string)
  (roleUsers : gmap string string) (input : UpdateUsersInput)
  : M (gmap string string) :=
  match roleUsers !! ToLower userEmail with
  | None => AddUser m input userEmail;; mret roleUsers
  | Some _ => mret (delete (ToLower userEmail) roleUsers)
  end.

Fixpoint SyncSamlUsers_loop (m : DefaultManager) (users : list string)
  (roleUsers : gmap string string) (uaaUsers : loc) (input : UpdateUsersInput)
  : M (gmap string string) :=
  match users with
  | [] => mret roleUsers
  | userEmail :: rest =>
      let lowerUserEmail := ToLower userEmail in
      directory ← readMap uaaUsers;
      match directory !! lowerUserEmail with
      | None =>
          created ← attempt (perform (Remote m)
                       (UAAMgrCreateExternalUser userEmail userEmail userEmail
                          (LdapOrigin m)));
          match created with
          | Err _ =>
              (* continue *)
              SyncSamlUsers_loop m rest roleUsers uaaUsers input
          | Ok _ =>
              writeEntry uaaUsers userEmail
                {| Uaa_Username := userEmail;
                   Uaa_Emails := [userEmail];
                   Uaa_ExternalID := userEmail;
                   Uaa_Origin := LdapOrigin m |};;
              roleUsers' ← samlAddOrMark m userEmail roleUsers input;
              SyncSamlUsers_loop m rest roleUsers' uaaUsers input
          end
      | Some _ =>
          roleUsers' ← samlAddOrMark m userEmail roleUsers input;
          SyncSamlUsers_loop m rest roleUsers' uaaUsers input
      end
  end.

Definition SyncSamlUsers (m : DefaultManager) (roleUsers : gmap string string)
  (uaaUsers : loc) (input : UpdateUsersInput) : M (gmap string string) :=
  SyncSamlUsers_loop m (SamlUsers input) roleUsers uaaUsers input.

(** Modelled from the spec: [SyncLdapUsers], which [SyncUsers] calls but
    whose file is not among the sources.  The specification says of this
    step: group names are resolved by the Group Resolver to member
    identities, failing if a name cannot be resolved; each resolved member
    follows the same add / mark-satisfied logic as an internal user, with
    the directory for the existence check. *)
Definition SyncLdapUsers (m : DefaultManager) (roleUsers : gmap string string)
  (uaaUsers : loc) (input : UpdateUsersInput) : M (gmap string string) :=
  members ← perform (Remote m) (LdapResolveMembers (LdapGroupNames input));
  SyncInternalUsers_loop m (ir_username <$> members) roleUsers uaaUsers input.

(** The loop of [RemoveUsers].  Go leaves the order of a map iteration
    open; the keys are taken in the order of [map_to_list]. *)
Fixpoint RemoveUsers_loop (m : DefaultManager) (roleUsers : list string)
  (input : UpdateUsersInput) : M unit :=
  match roleUsers with
  | [] => mret tt
  | roleUser :: rest =>
      RemoveUser m input roleUser;;
      RemoveUsers_loop m rest input
  end.

Definition RemoveUsers (m : DefaultManager) (roleUsers : gmap string string)
  (input : UpdateUsersInput) : M unit :=
  if RemoveUsers_flag input then
    RemoveUsers_loop m (fst <$> map_to_list roleUsers) input
  else mret tt.

Definition SyncUsers (m : DefaultManager) (uaaUsers : loc)
  (input : UpdateUsersInput) : M unit :=
  roleUsers ← ListUsers m input;
  roleUsers ← SyncLdapUsers m roleUsers uaaUsers input;
  roleUsers ← SyncInternalUsers m roleUsers uaaUsers input;
  roleUsers ← SyncSamlUsers m roleUsers uaaUsers input;
  RemoveUsers m roleUsers input.

(* ------------------------------------------------------------------ *)
(** ** Package [user]: the run drivers *)

Definition spaceInput (space : Space) (input : SpaceConfig) (r : Role)
  (groups : list string) (um : UserMgmt) : UpdateUsersInput :=
  {| SpaceName := Space_Name space;
     SpaceGUID := Space_Guid space;
     OrgName := SC_Org input;
     OrgGUID := Space_OrganizationGuid space;
     LdapGroupNames := groups;
     LdapUsers := UM_LDAPUsers um;
     Users := UM_Users um;
     SamlUsers := UM_SamlUsers um;
     RemoveUsers_flag := SC_RemoveUsers input;
     Binding := r |}.

Definition updateSpaceUsers (m : DefaultManager) (input : SpaceConfig)
  (uaaUsers : loc) : M unit :=
  space ← wrap (space.FindSpace (SpaceMgr m) (SC_Org input) (SC_Space input))
             ("Error finding space for org " +:+ SC_Org input +:+ ", space "
              +:+ SC_Space input);
  wrap (SyncUsers m uaaUsers
          (spaceInput space input SpaceDeveloper
             (SC_GetDeveloperGroups input) (SC_Developer input)))
       ("Error syncing users for org " +:+ SC_Org input +:+ ", space "
        +:+ SC_Space input +:+ ", role developer");;
  wrap (SyncUsers m uaaUsers
          (spaceInput space input SpaceManager
             (SC_GetManagerGroups input) (SC_Manager input)))
       ("Error syncing users for org " +:+ SC_Org input +:+ ", space "
        +:+ SC_Space input +:+ ", role manager");;
  wrap (SyncUsers m uaaUsers
          (spaceInput space input SpaceAuditor
             (SC_GetAuditorGroups input) (SC_Auditor input)))
       ("Error syncing users for org " +:+ SC_Org input +:+ ", space "
        +:+ SC_Space input +:+ ", role auditor").

Fixpoint updateSpaceUsers_each (m : DefaultManager) (spaceConfigs : list SpaceConfig)
  (uaaUsers : loc) : M unit :=
  match spaceConfigs with
  | [] => mret tt
  | input :: rest =>
      updateSpaceUsers m input uaaUsers;;
      updateSpaceUsers_each m rest uaaUsers
  end.

(** [m.UAAMgr.ListUsers()] returns a map object; every later use of
    [uaaUsers] is a use of that object. *)
Definition UAAMgr_ListUsers (m : DefaultManager) : M loc :=
  users ← perform (Remote m) UAAMgrListUsers;
  newMap users.

Definition UpdateSpaceUsers (m : DefaultManager) : M unit :=
  uaaUsers ← UAAMgr_ListUsers m;
  spaceConfigs ← perform (Remote m) CfgGetSpaceConfigs;
  updateSpaceUsers_each m spaceConfigs uaaUsers.

Definition orgInput (org : Org) (input : OrgConfig) (r : Role)
  (groups : list string) (um : UserMgmt) : UpdateUsersInput :=
  {| SpaceName := "";
     SpaceGUID := "";
     OrgName := Org_Name org;
     OrgGUID := Org_Guid org;
     LdapGroupNames := groups;
     LdapUsers := UM_LDAPUsers um;
     Users := UM_Users um;
     SamlUsers := UM_SamlUsers um;
     RemoveUsers_flag := OC_RemoveUsers input;
     Binding := r |}.

Definition updateOrgUsers (m : DefaultManager) (input : OrgConfig)
  (uaacUsers : loc) : M unit :=
  org ← perform (Remote m) (OrgMgrFindOrg (OC_Org input));
  wrap (SyncUsers m uaacUsers
          (orgInput org input OrgBillingManager
             (OC_GetBillingManagerGroups input) (OC_BillingManager input)))
       ("Error syncing users for org " +:+ OC_Org input +:+ " role billing_managers");;
  wrap (SyncUsers m uaacUsers
          (orgInput org input OrgAuditor
             (OC_GetAuditorGroups input) (OC_Auditor input)))
       ("Error syncing users for org " +:+ OC_Org input +:+ " role org-auditors");;
  wrap (SyncUsers m uaacUsers
          (orgInput org input OrgManager
             (OC_GetManagerGroups input) (OC_Manager input)))
       ("Error syncing users for org " +:+ OC_Org input +:+ " role org-manager").

Fixpoint updateOrgUsers_each (m : DefaultManager) (orgConfigs : list OrgConfig)
  (uaacUsers : loc) : M unit :=
  match orgConfigs with
  | [] => mret tt
  | input :: rest =>
      updateOrgUsers m input uaacUsers;;
      updateOrgUsers_each m rest uaacUsers
  end.

Definition UpdateOrgUsers (m : DefaultManager) : M unit :=
  uaacUsers ← UAAMgr_ListUsers m;
  orgConfigs ← perform (Remote m) CfgGetOrgConfigs;
  updateOrgUsers_each m orgConfigs uaacUsers.

(* ------------------------------------------------------------------ *)
(** ** Package [user]: the cleanup of org users *)

(** [appendToMap(source, append)]: every entry of [append] is written into
    [source]; the result is [source] after the writes. *)
Definition appendToMap (source append : gmap string string) : gmap string string :=
  append ∪ source.

Definition listSpaces (m : DefaultManager) (orgGUID : string) : M (list Space) :=
  perform (Remote m) (ClientListSpacesByQuery orgGUID).

(** The loop over the spaces in [usersInOrgRoles]. *)
Fixpoint usersInOrgRoles_spaces (m : DefaultManager) (orgName : string)
  (spaces : list Space) (userMap : gmap string string) : M (gmap string string) :=
  match spaces with
  | [] => mret userMap
  | space :: rest =>
      spaceAuditors ← wrap (ListSpaceAuditors m (Space_Guid space))
        ("Error listing space auditors for org/space " +:+ orgName +:+ "/"
         +:+ Space_Name space);
      let userMap := appendToMap userMap spaceAuditors in
      spaceDevelopers ← wrap (ListSpaceAuditors m (Space_Guid space))
        ("Error listing space developers for org/space " +:+ orgName +:+ "/"
         +:+ Space_Name space);
      let userMap := appendToMap userMap spaceDevelopers in
      spaceManagers ← wrap (ListSpaceManagers m (Space_Guid space))
        ("Error listing space managers for org/space " +:+ orgName +:+ "/"
         +:+ Space_Name space);
      let userMap := appendToMap userMap spaceManagers in
      usersInOrgRoles_spaces m orgName rest userMap
  end.

Definition usersInOrgRoles (m : DefaultManager) (orgName orgGUID : string)
  : M (gmap string string) :=
  let userMap : gmap string string := ∅ in
  orgAuditors ← wrap (ListOrgAuditors m orgGUID)
    ("Error listing org auditors for org " +:+ orgName);
  let userMap := appendToMap userMap orgAuditors in
  orgManagers ← wrap (ListOrgManagers m orgGUID)
    ("Error listing org managers for org " +:+ orgName);
  let userMap := appendToMap userMap orgManagers in
  orgBillingManagers ← wrap (ListOrgBillingManagers m orgGUID)
    ("Error listing org billing managers for org " +:+ orgName);
  let userMap := appendToMap userMap orgBillingManagers in
  spaces ← wrap (listSpaces m orgGUID)
    ("Error listing spaces for org " +:+ orgName);
  usersInOrgRoles_spaces m orgName spaces userMap.

(** The loop over the org users in [cleanupOrgUsers]. *)
Fixpoint cleanupOrgUsers_loop (m : DefaultManager) (input : OrgConfig) (org : Org)
  (orgUsers : list CFUser) (usersInRoles : gmap string string) : M unit :=
  match orgUsers with
  | [] => mret tt
  | orgUser :: rest =>
      match usersInRoles !! ToLower (User_Username orgUser) with
      | None =>
          if Peek m then
            (* continue *)
            cleanupOrgUsers_loop m input org rest usersInRoles
          else
            wrap (perform (Remote m)
                    (ClientRemoveOrgUserByUsername (Org_Guid org) (User_Username orgUser)))
                 ("Error removing user " +:+ User_Username orgUser +:+ " from org "
                  +:+ OC_Org input);;
            cleanupOrgUsers_loop m input org rest usersInRoles
      | Some _ => cleanupOrgUsers_loop m input org rest usersInRoles
      end
  end.

Definition cleanupOrgUsers (m : DefaultManager) (input : OrgConfig) : M unit :=
  org ← perform (Remote m) (OrgMgrFindOrg (OC_Org input));
  orgUsers ← wrap (perform (Remote m) (ClientListOrgUsers (Org_Guid org)))
    ("Error listing org users for org " +:+ OC_Org input);
  usersInRoles ← wrap (usersInOrgRoles m (Org_Name org) (Org_Guid org))
    ("Error usersInOrgRoles for org " +:+ OC_Org input);
  cleanupOrgUsers_loop m input org orgUsers usersInRoles.

Fixpoint cleanupOrgUsers_each (m : DefaultManager) (orgConfigs : list OrgConfig)
  : M unit :=
  match orgConfigs with
  | [] => mret tt
  | input :: rest =>
      cleanupOrgUsers m input;;
      cleanupOrgUsers_each m rest
  end.

Definition CleanupOrgUsers (m : DefaultManager) : M unit :=
  orgConfigs ← perform (Remote m) CfgGetOrgConfigs;
  cleanupOrgUsers_each m orgConfigs.

(** Running a computation from the start of a run. *)
Definition initial : state := {| calls := []; heap := [] |}.

(** The calls a computation makes when started in [s]. *)
Definition issued {A} (m : M A) (s : state) : list call :=
  drop (length (calls s)) (calls (m s).2).

(* ------------------------------------------------------------------ *)
(** ** A table-driven world, for evaluating the code on examples *)

Record Table := {
  T_members : Role → string → list CFUser;
  T_orgUsers : list CFUser;
  T_spaces : list Space;
  T_uaaUsers : gmap string UaaUser;
  T_groupMembers : list IdentityRecord;
  T_orgConfigs : list OrgConfig;
  T_spaceConfigs : list SpaceConfig;
  T_createFails : string → bool
}.

Definition tableWorld (t : Table) : World := λ _ c,
  match c return result (resp c) with
  | ClientList r guid => Ok (T_members t r guid)
  | ClientAssociateByUsername _ _ _ => Ok tt
  | ClientRemoveByUsername _ _ _ => Ok tt
  | ClientListOrgUsers _ => Ok (T_orgUsers t)
  | ClientAssociateOrgUserByUsername _ _ => Ok tt
  | ClientRemoveOrgUserByUsername _ _ => Ok tt
  | ClientListSpacesByQuery _ => Ok (T_spaces t)
  | OrgMgrFindOrg orgName =>
      Ok {| Org_Name := orgName; Org_Guid := orgName +:+ "-guid" |}
  | OrgMgrGetOrgGUID orgName => Ok (orgName +:+ "-guid")
  | UAAMgrListUsers => Ok (T_uaaUsers t)
  | UAAMgrCreateExternalUser userName _ _ _ =>
      if T_createFails t userName then Err (RemoteError "create failed") else Ok tt
  | CfgGetOrgConfigs => Ok (T_orgConfigs t)
  | CfgGetSpaceConfigs => Ok (T_spaceConfigs t)
  | LdapResolveMembers _ => Ok (T_groupMembers t)
  end.

Definition tableManager (t : Table) (peek : bool) : DefaultManager :=
  {| Remote := tableWorld t;
     SpaceMgr := {| space.Remote := tableWorld t; space.Peek := peek |};
     Peek := peek;
     LdapOrigin := "saml" |}.

Definition cfUser (name : string) : CFUser :=
  {| User_Username := name; User_Guid := name +:+ "-guid" |}.

Definition uaaUser (name : string) : UaaUser :=
  {| Uaa_Username := name; Uaa_Emails := [name]; Uaa_ExternalID := name;
     Uaa_Origin := "uaa" |}.

Definition noUsers : UserMgmt :=
  {| UM_LDAPUsers := []; UM_Users := []; UM_SamlUsers := [] |}.

(* ------------------------------------------------------------------ *)
(** ** Kinds of calls *)

(** A role association, the second phase of an add. *)
Definition isRoleAdd (c : call) : bool :=
  match c with ClientAssociateByUsername _ _ _ => true | _ => false end.

(** An add call of either phase. *)
Definition isAdd (c : call) : bool :=
  match c with
  | ClientAssociateByUsername _ _ _ | ClientAssociateOrgUserByUsername _ _ => true
  | _ => false
  end.

Definition isRemove (c : call) : bool :=
  match c with
  | ClientRemoveByUsername _ _ _ | ClientRemoveOrgUserByUsername _ _ => true
  | _ => false
  end.

(** The provisioning of a federated identity. *)
Definition isCreate (c : call) : bool :=
  match c with UAAMgrCreateExternalUser _ _ _ _ => true | _ => false end.

(** A call that changes nothing remotely: lists, lookups, configuration
    reads and group resolution. *)
Definition isRead (c : call) : bool :=
  negb (isAdd c || isRemove c || isCreate c).

(* ------------------------------------------------------------------ *)
(** ** Predicates on the calls issued *)

(** [emits Q m]: started in any state, [m] only appends to the history, and
    what it appends satisfies [Q]. *)
Definition emits (Q : list call → Prop) {A} (m : M A) : Prop :=
  ∀ s, ∃ new, calls (m s).2 = calls s ++ new ∧ Q new.

(** No condition on the calls: the history only grows. *)
Definition anyCalls (new : list call) : Prop := True.

(** No call of the sequence is a remove. *)
Definition noRemove (new : list call) : Prop :=
  Forall (λ c, isRemove c = false) new.

(** Two-phase add: every role association of the sequence comes right
    after the association of the same user with the org. *)
Definition twoPhase (orgGUID : string) (new : list call) : Prop :=
  ∀ pre r guid userName post,
    new = pre ++ ClientAssociateByUsername r guid userName :: post →
    ∃ pre', pre = pre' ++ [ClientAssociateOrgUserByUsername orgGUID userName].

(* ------------------------------------------------------------------ *)
(** ** Example data *)

Definition space_dev : Space :=
  {| Space_Name := "dev"; Space_Guid := "dev-guid";
     Space_OrganizationGuid := "test-org-guid"; Space_AllowSSH := false |}.

(** The developer binding of space "dev" of org "test-org". *)
Definition devBinding (users samlUsers : list string) (remove : bool)
  : UpdateUsersInput :=
  {| SpaceGUID := "dev-guid"; OrgGUID := "test-org-guid";
     LdapUsers := []; LdapGroupNames := ["space-devs"];
     SpaceName := "dev"; OrgName := "test-org";
     Users := users; SamlUsers := samlUsers;
     RemoveUsers_flag := remove; Binding := SpaceDeveloper |}.

Definition identity (name : string) : IdentityRecord :=
  {| ir_username := name; ir_identifier := name +:+ "-guid";
     ir_email := name; ir_origin := "ldap" |}.

(** Space "dev" has the developers alice and carol; the group resolves to
    alice; alice, bob and carol are in the directory. *)
Definition scenario : Table :=
  {| T_members := λ r _, match r with
                         | SpaceDeveloper => [cfUser "alice"; cfUser "carol"]
                         | _ => []
                         end;
     T_orgUsers := [cfUser "alice"; cfUser "carol"];
     T_spaces := [space_dev];
     T_uaaUsers := list_to_map [("alice", uaaUser "alice"); ("bob", uaaUser "bob");
                                ("carol", uaaUser "carol")];
     T_groupMembers := [identity "alice"];
     T_orgConfigs := [];
     T_spaceConfigs := [];
     T_createFails := λ _, false |}.

(** A state in which the directory of [scenario] has been loaded. *)
Definition loaded (t : Table) : state :=
  {| calls := [UAAMgrListUsers]; heap := [T_uaaUsers t] |}.

(** The placeholder [FindSpace] returns under dry-run for a space that is
    not there. *)
Definition placeholder (orgName spaceName : string) : Space :=
  {| Space_Name := spaceName;
     Space_Guid := spaceName +:+ "-dry-run-space-guid";
     Space_OrganizationGuid := orgName +:+ "-dry-run-org-guid";
     Space_AllowSSH := false |}.

(** Org "test-org" without any space. *)
Definition emptyOrg : Table :=
  {| T_members := λ _ _, [cfUser "ghost"];
     T_orgUsers := [];
     T_spaces := [];
     T_uaaUsers := ∅;
     T_groupMembers := [];
     T_orgConfigs := [];
     T_spaceConfigs := [];
     T_createFails := λ _, false |}.

(** The listing of the space developers, which the cleanup needs for its
    union. *)
Definition isDeveloperList (c : call) : bool :=
  match c with ClientList SpaceDeveloper _ => true | _ => false end.

Definition orgConfig (orgName : string) (remove : bool) : OrgConfig :=
  {| OC_Org := orgName;
     OC_BillingManager := noUsers; OC_Manager := noUsers; OC_Auditor := noUsers;
     OC_GetBillingManagerGroups := []; OC_GetManagerGroups := [];
     OC_GetAuditorGroups := [];
     OC_RemoveUsers := remove |}.

(** Org "test-org" with the members dave and erin: dave is a developer of
    its space "dev" and holds no other role, erin is an auditor of it. *)
Definition developerOnly : Table :=
  {| T_members := λ r _, match r with
                         | SpaceDeveloper => [cfUser "dave"]
                         | SpaceAuditor => [cfUser "erin"]
                         | _ => []
                         end;
     T_orgUsers := [cfUser "dave"; cfUser "erin"];
     T_spaces := [space_dev];
     T_uaaUsers := ∅;
     T_groupMembers := [];
     T_orgConfigs := [orgConfig "test-org" true];
     T_spaceConfigs := [];
     T_createFails := λ _, false |}.






(** Neither an add nor a remove among the calls. *)
Definition noAddRemove (new : list call) : Prop :=
  Forall (λ c, isAdd c = false ∧ isRemove c = false) new.

(** The case-folded names the three sources of a binding ask for, the
    group having been resolved to [members]. *)
Definition desiredNames (members : list IdentityRecord) (input : UpdateUsersInput)
  : list string :=
  ToLower <$> ((ir_username <$> members) ++ Users input ++ SamlUsers input).

(** alice is the only developer of space "dev", and is in the directory;
    the group has no member. *)
Definition aliceOnly : Table :=
  {| T_members := λ r _, match r with
                         | SpaceDeveloper => [cfUser "alice"]
                         | _ => []
                         end;
     T_orgUsers := [cfUser "alice"];
     T_spaces := [space_dev];
     T_uaaUsers := {["alice" := uaaUser "alice"]};
     T_groupMembers := [];
     T_orgConfigs := [];
     T_spaceConfigs := [];
     T_createFails := λ _, false |}.

(** eve@x is the only developer of space "dev"; the directory does not
    have her and her provisioning fails. *)
Definition eveUnknown : Table :=
  {| T_members := λ r _, match r with
                         | SpaceDeveloper => [cfUser "eve@x"]
                         | _ => []
                         end;
     T_orgUsers := [cfUser "eve@x"];
     T_spaces := [space_dev];
     T_uaaUsers := ∅;
     T_groupMembers := [];
     T_orgConfigs := [];
     T_spaceConfigs := [];
     T_createFails := λ _, true |}.

(** Space "dev" has the developers alice, bob@x and carol; carol is the
    member of the group; alice and carol are in the directory, the federated
    user bob@x is not and can be provisioned. *)
Definition settled : Table :=
  {| T_members := λ r _, match r with
                         | SpaceDeveloper => [cfUser "alice"; cfUser "bob@x"; cfUser "Carol"]
                         | _ => []
                         end;
     T_orgUsers := [];
     T_spaces := [space_dev];
     T_uaaUsers := list_to_map [("alice", uaaUser "alice"); ("carol", uaaUser "carol")];
     T_groupMembers := [identity "carol"];
     T_orgConfigs := [];
     T_spaceConfigs := [];
     T_createFails := λ _, false |}.

Global Instance call_eq_dec : EqDecision call.
Proof. solve_decision. Defined.






(** [keeps R m]: the state [m] ends in is related by [R] to the one it
    started in. *)
Definition keeps (R : state → state → Prop) {A} (m : M A) : Prop :=
  ∀ s, R s (m s).2.

Definition sameHeap (s s' : state) : Prop := heap s' = heap s.


(** The identity [SyncSamlUsers] enters into the directory after a
    provisioning. *)
Definition samlIdentity (m : DefaultManager) (userEmail : string) : UaaUser :=
  {| Uaa_Username := userEmail;
     Uaa_Emails := [userEmail];
     Uaa_ExternalID := userEmail;
     Uaa_Origin := LdapOrigin m |}.

(** What a step may do to the directory at [uaaUsers]: the history grows,
    no map object comes or goes, the other map objects are as they were, and an entry of the
    directory is as it was unless its key is one of [users], provisioned with
    success during the step, in which case the entry is the new identity. *)
Definition directoryEffect (m : DefaultManager) (uaaUsers : loc)
    (users : list string) (s s' : state) : Prop :=
  (∃ new, calls s' = calls s ++ new) ∧
  length (heap s') = length (heap s) ∧
  (∀ l, l ≠ uaaUsers → heap s' !! l = heap s !! l) ∧
  ∀ k,
    mapAt s' uaaUsers !! k = mapAt s uaaUsers !! k ∨
    (k ∈ users ∧
     mapAt s' uaaUsers !! k = Some (samlIdentity m k) ∧
     ∃ pre post,
       calls s' = calls s ++ pre ++ UAAMgrCreateExternalUser k k k (LdapOrigin m) :: post ∧
       Remote m (calls s ++ pre) (UAAMgrCreateExternalUser k k k (LdapOrigin m)) = Ok tt).



(** Space "dev" exists; its configuration asks for the federated user zoe@x
    as a developer and as a manager; the directory is empty. *)
Definition zoeConfig : SpaceConfig :=
  {| SC_Org := "test-org";
     SC_Space := "dev";
     SC_Developer := {| UM_LDAPUsers := []; UM_Users := []; UM_SamlUsers := ["zoe@x"] |};
     SC_Manager := {| UM_LDAPUsers := []; UM_Users := []; UM_SamlUsers := ["zoe@x"] |};
     SC_Auditor := noUsers;
     SC_GetDeveloperGroups := [];
     SC_GetManagerGroups := [];
     SC_GetAuditorGroups := [];
     SC_RemoveUsers := false |}.

Definition zoeSpace : Table :=
  {| T_members := λ _ _, [];
     T_orgUsers := [];
     T_spaces := [space_dev];
     T_uaaUsers := ∅;
     T_groupMembers := [];
     T_orgConfigs := [];
     T_spaceConfigs := [zoeConfig];
     T_createFails := λ _, false |}.

(* ------------------------------------------------------------------ *)
(** ** Further predicates on calls and states *)

(** The role a call of the CF client is about, when it is about one. *)
Definition callRole (c : call) : option Role :=
  match c with
  | ClientList r _ | ClientAssociateByUsername r _ _ | ClientRemoveByUsername r _ _ =>
      Some r
  | _ => None
  end.

(** The two calls of an add of [userName] by the binding [input]. *)
Definition addCallsOf (input : UpdateUsersInput) (userName : string) : list call :=
  [ClientAssociateOrgUserByUsername (OrgGUID input) userName;
   ClientAssociateByUsername (Binding input) (targetGUID input) userName].

(** The remove call of the binding [input] for [userName]. *)
Definition removeCallOf (input : UpdateUsersInput) (userName : string) : call :=
  ClientRemoveByUsername (Binding input) (targetGUID input) userName.

(** The provisioning call for a federated user. *)
Definition createCallOf (m : DefaultManager) (userEmail : string) : call :=
  UAAMgrCreateExternalUser userEmail userEmail userEmail (LdapOrigin m).


(** Every call about a role is about a space role, resp. an org role. *)
Definition spaceRolesOnly (new : list call) : Prop :=
  Forall (λ c, ∀ r, callRole c = Some r → isSpaceRole r = true) new.

Definition orgRolesOnly (new : list call) : Prop :=
  Forall (λ c, ∀ r, callRole c = Some r → isSpaceRole r = false) new.

(** Nothing is changed remotely through the CF client: no association and
    no removal, of a role or of the org membership. *)
Definition noClientMutation (new : list call) : Prop :=
  Forall (λ c, isAdd c = false ∧ isRemove c = false) new.

(* ------------------------------------------------------------------ *)
(** ** Computations that only call collaborators

    The command line and the rest of package [space] reach collaborators
    that the user manager does not, and keep no map object.  Their
    computations are over a history of calls alone, for any type [C] of
    calls; a world answers a call from the history as before. *)

Definition TM (C A : Type) : Type := list C → result A * list C.

Global Instance TM_ret {C} : MRet (TM C) := λ A a h, (Ok a, h).

Global Instance TM_bind {C} : MBind (TM C) := λ A B f m h,
  match m h with
  | (Ok a, h') => f a h'
  | (Err e, h') => (Err e, h')
  end.

Definition tfail {C A} (e : error) : TM C A := λ h, (Err e, h).

Definition tattempt {C A} (m : TM C A) : TM C (result A) := λ h,
  let '(r, h') := m h in (Ok r, h').

Definition tperform {C} {R : C → Type} (w : ∀ (history : list C) (c : C), result (R c))
    (c : C) : TM C (R c) :=
  λ h, (w h c, h ++ [c]).

(** The calls a computation makes when started after [h]. *)
Definition tissued {C A} (m : TM C A) (h : list C) : list C :=
  drop (length h) (m h).2.

(** [temits Q m]: [m] only appends to the history, and what it appends
    satisfies [Q]. *)
Definition temits {C} (Q : list C → Prop) {A} (m : TM C A) : Prop :=
  ∀ h, ∃ new, (m h).2 = h ++ new ∧ Q new.

(* ------------------------------------------------------------------ *)
(** ** Package [main]: flags and the set-up of the managers *)

Module main.

(** [strings.Replace(input, "_", "-", -1)]. *)
Fixpoint replaceUnderscores (input : string) : string :=
  match input with
  | EmptyString => EmptyString
  | String c rest =>
      String (if bool_decide (c = "_"%char) then "-"%char else c)
             (replaceUnderscores rest)
  end.

Definition getFlag (input : string) : string :=
  ToLower (replaceUnderscores input).



(** The names of the environment variables. *)
Definition systemDomain : string := "SYSTEM_DOMAIN".
Definition userID : string := "USER_ID".
Definition password : string := "PASSWORD".
Definition clientSecret : string := "CLIENT_SECRET".
Definition configDir : string := "CONFIG_DIR".
Definition ldapPassword : string := "LDAP_PASSWORD".

(** [main.Context], as far as it is used: [c.String(name)], which is the
    empty string for a flag that is not set. *)
Definition Context := string → string.

Definition getConfigDir (c : Context) : string :=
  let cDir := c (getFlag configDir) in
  if bool_decide (cDir = "") then "config" else cDir.

(** The calls of [InitializeManager], both on the UAA manager made by
    [uaa.NewDefaultUAAManager(sysDomain, user)]. *)
Inductive call :=
| GetCFToken (sysDomain user pwd : string)
| GetUAACToken (sysDomain user secret : string).

Definition resp (c : call) : Type := string.

Definition World := ∀ (history : list call) (c : call), result (resp c).

(** [CFMgmt]: each manager is given by the arguments of its constructor. *)
Record CFMgmt := {
  UAAManager : string * string;
  OrgManager : string * string * string;
  SpaceManager : string * string * string;
  ConfigManager : string;
  ConfigDir : string;
  LdapBindPwd : string;
  uaacToken : string;
  CFMgmt_systemDomain : string;
  UAACManager : string * string
}.

Definition InitializeManager (w : World) (c : Context) : TM call CFMgmt :=
  let configDir := getConfigDir c in
  if bool_decide (configDir = "") then
    tfail (Errorf "Config directory name is required")
  else
    let sysDomain := c (getFlag systemDomain) in
    let user := c (getFlag userID) in
    let pwd := c (getFlag password) in
    let secret := c (getFlag clientSecret) in
    let ldapPwd := c (getFlag ldapPassword) in
    if bool_decide (sysDomain = "") || bool_decide (user = "")
       || bool_decide (pwd = "") || bool_decide (secret = "") then
      tfail (Errorf "Must set system-domain, user-id, password, client-secret properties")
    else
      cfToken ← tperform w (GetCFToken sysDomain user pwd);
      uaacToken ← tperform w (GetUAACToken sysDomain user secret);
      mret {| UAAManager := (sysDomain, user);
              OrgManager := (sysDomain, cfToken, uaacToken);
              SpaceManager := (sysDomain, cfToken, uaacToken);
              ConfigManager := configDir;
              ConfigDir := configDir;
              LdapBindPwd := ldapPwd;
              uaacToken := uaacToken;
              CFMgmt_systemDomain := systemDomain;
              UAACManager := (systemDomain, uaacToken) |}.

End main.

(** A context with the required flags set and no config directory. *)
Definition demoContext : main.Context := λ name,
  if bool_decide (name = "system-domain") then "sys.example.com"
  else if bool_decide (name = "user-id") then "admin"
  else if bool_decide (name = "password") then "pw"
  else if bool_decide (name = "client-secret") then "secret"
  else "".

Definition demoTokens : main.World := λ _ c,
  match c with
  | main.GetCFToken _ _ _ => Ok "cf-token"
  | main.GetUAACToken _ _ _ => Ok "uaac-token"
  end.

(* ------------------------------------------------------------------ *)
(** ** Package [space], continued: creating, updating and deleting spaces *)

(** [strings.EqualFold], on ASCII: equal after case folding. *)
Definition EqualFold (s t : string) : bool :=
  bool_decide (ToLower s = ToLower t).

Module spacemgmt.

(** [config.Spaces]: the spaces configured for one org. *)
Record Spaces := {
  Spaces_Org : string;
  Spaces_Spaces : list string;
  EnableDeleteSpaces : bool
}.

(** [config.SpaceConfig], the fields [UpdateSpaces] reads. *)
Record SpaceConfig := {
  SpaceConfig_Org : string;
  SpaceConfig_Space : string;
  SpaceConfig_AllowSSH : bool
}.

(** The calls of the package: on the org manager, on the CF client (with
    the fields of the [cfclient.SpaceRequest] written out) and on the
    configuration reader. *)
Inductive call :=
| OrgMgrGetOrgGUID (orgName : string)
| OrgMgrFindOrg (orgName : string)
| ClientListSpacesByQuery (orgGUID : string)
| ClientUpdateSpace (spaceGUID name : string) (allowSSH : bool) (organizationGuid : string)
| ClientCreateSpace (name organizationGuid : string)
| ClientDeleteSpace (guid : string) (recursive async : bool)
| CfgGetSpaceConfigs
| CfgSpaces.

Definition resp (c : call) : Type :=
  match c with
  | OrgMgrGetOrgGUID _ => string
  | OrgMgrFindOrg _ => Org
  | ClientListSpacesByQuery _ => list Space
  | CfgGetSpaceConfigs => list SpaceConfig
  | CfgSpaces => list Spaces
  | _ => unit
  end.

Definition World := ∀ (history : list call) (c : call), result (resp c).

Record DefaultManager := {
  Remote : World;
  Peek : bool
}.

(** A call that changes a space remotely. *)
Definition isMutation (c : call) : bool :=
  match c with
  | ClientUpdateSpace _ _ _ _ | ClientCreateSpace _ _ | ClientDeleteSpace _ _ _ => true
  | _ => false
  end.

Definition UpdateSpaceSSH (m : DefaultManager) (sshAllowed : bool) (space : Space)
  (orgName : string) : TM call unit :=
  if Peek m then mret tt
  else tperform (Remote m)
         (ClientUpdateSpace (Space_Guid space) (Space_Name space) sshAllowed
            (Space_OrganizationGuid space)).

Definition ListSpaces (m : DefaultManager) (orgGUID : string) : TM call (list Space) :=
  tperform (Remote m) (ClientListSpacesByQuery orgGUID).

(** [FindSpace], as in module [space], over the calls of this module. *)
Definition FindSpace (m : DefaultManager) (orgName spaceName : string) : TM call Space :=
  orgGUID ← tperform (Remote m) (OrgMgrGetOrgGUID orgName);
  spaces ← ListSpaces m orgGUID;
  match space.firstNamed spaces spaceName with
  | Some theSpace => mret theSpace
  | None =>
      if Peek m then
        mret {| Space_Name := spaceName;
                Space_Guid := spaceName +:+ "-dry-run-space-guid";
                Space_OrganizationGuid := orgName +:+ "-dry-run-org-guid";
                Space_AllowSSH := false |}
      else
        tfail (Errorf ("space [" +:+ spaceName +:+ "] not found in org ["
                       +:+ orgName +:+ "]"))
  end.

(** The loop of [UpdateSpaces]. *)
Fixpoint UpdateSpaces_loop (m : DefaultManager) (spaceConfigs : list SpaceConfig)
  : TM call unit :=
  match spaceConfigs with
  | [] => mret tt
  | input :: rest =>
      found ← tattempt (FindSpace m (SpaceConfig_Org input) (SpaceConfig_Space input));
      match found with
      | Err _ =>
          (* continue *)
          UpdateSpaces_loop m rest
      | Ok space =>
          (if bool_decide (SpaceConfig_AllowSSH input ≠ Space_AllowSSH space) then
             UpdateSpaceSSH m (SpaceConfig_AllowSSH input) space (SpaceConfig_Org input)
           else mret tt);;
          UpdateSpaces_loop m rest
      end
  end.

Definition UpdateSpaces (m : DefaultManager) : TM call unit :=
  spaceConfigs ← tperform (Remote m) CfgGetSpaceConfigs;
  UpdateSpaces_loop m spaceConfigs.

Definition CreateSpace (m : DefaultManager) (spaceName orgName orgGUID : string)
  : TM call unit :=
  if Peek m then mret tt
  else tperform (Remote m) (ClientCreateSpace spaceName orgGUID).

Fixpoint doesSpaceExist (spaces : list Space) (spaceName : string) : bool :=
  match spaces with
  | [] => false
  | space :: rest =>
      if EqualFold (Space_Name space) spaceName then true
      else doesSpaceExist rest spaceName
  end.

(** The inner loop of [CreateSpaces], over the space names of one org. *)
Fixpoint CreateSpaces_names (m : DefaultManager) (input : Spaces) (orgGUID : string)
  (spaces : list Space) (names : list string) : TM call unit :=
  match names with
  | [] => mret tt
  | spaceName :: rest =>
      if doesSpaceExist spaces spaceName then
        CreateSpaces_names m input orgGUID spaces rest
      else
        CreateSpace m spaceName (Spaces_Org input) orgGUID;;
        CreateSpaces_names m input orgGUID spaces rest
  end.

(** The outer loop of [CreateSpaces]. *)
Fixpoint CreateSpaces_loop (m : DefaultManager) (configSpaceList : list Spaces)
  : TM call unit :=
  match configSpaceList with
  | [] => mret tt
  | input :: rest =>
      if bool_decide (length (Spaces_Spaces input) = 0) then
        CreateSpaces_loop m rest
      else
        orgGUID ← tperform (Remote m) (OrgMgrGetOrgGUID (Spaces_Org input));
        listed ← tattempt (ListSpaces m orgGUID);
        match listed with
        | Err _ =>
            (* continue *)
            CreateSpaces_loop m rest
        | Ok spaces =>
            CreateSpaces_names m input orgGUID spaces (Spaces_Spaces input);;
            CreateSpaces_loop m rest
        end
  end.

Definition CreateSpaces (m : DefaultManager) : TM call unit :=
  configSpaceList ← tperform (Remote m) CfgSpaces;
  CreateSpaces_loop m configSpaceList.

Definition DeleteSpace (m : DefaultManager) (space : Space) (orgName : string)
  : TM call unit :=
  if Peek m then mret tt
  else tperform (Remote m) (ClientDeleteSpace (Space_Guid space) true true).

(** The spaces of an org that are not among the configured names. *)
Definition spacesToDelete (configuredSpaces : list string) (spaces : list Space)
  : list Space :=
  filter (λ space, Space_Name space ∉ configuredSpaces) spaces.

Fixpoint DeleteSpaces_each (m : DefaultManager) (spacesToDelete : list Space)
  (orgName : string) : TM call unit :=
  match spacesToDelete with
  | [] => mret tt
  | space :: rest =>
      DeleteSpace m space orgName;;
      DeleteSpaces_each m rest orgName
  end.

(** The loop of [DeleteSpaces] over the orgs. *)
Fixpoint DeleteSpaces_loop (m : DefaultManager) (configSpaceList : list Spaces)
  : TM call unit :=
  match configSpaceList with
  | [] => mret tt
  | input :: rest =>
      if negb (EnableDeleteSpaces input) then
        (* continue: skip all orgs that have not opted in *)
        DeleteSpaces_loop m rest
      else
        org ← tperform (Remote m) (OrgMgrFindOrg (Spaces_Org input));
        spaces ← ListSpaces m (Org_Guid org);
        DeleteSpaces_each m (spacesToDelete (Spaces_Spaces input) spaces)
          (Spaces_Org input);;
        DeleteSpaces_loop m rest
  end.

Definition DeleteSpaces (m : DefaultManager) : TM call unit :=
  configSpaceList ← tperform (Remote m) CfgSpaces;
  DeleteSpaces_loop m configSpaceList.

(** No call changes a space. *)
Definition noMutation (new : list call) : Prop :=
  Forall (λ c, isMutation c = false) new.

End spacemgmt.

(** Org "test-org" has the spaces "dev", with SSH off, and "Legacy"; the
    configuration names the spaces "dev", "legacy" and "qa", asks for SSH on
    "dev", and has the deletion of spaces enabled. *)
Definition space_legacy : Space :=
  {| Space_Name := "Legacy"; Space_Guid := "legacy-guid";
     Space_OrganizationGuid := "test-org-guid"; Space_AllowSSH := false |}.

Definition demoSpacesConfig : spacemgmt.Spaces :=
  {| spacemgmt.Spaces_Org := "test-org";
     spacemgmt.Spaces_Spaces := ["dev"; "legacy"; "qa"];
     spacemgmt.EnableDeleteSpaces := true |}.

Definition demoSpaceWorld : spacemgmt.World := λ _ c,
  match c return result (spacemgmt.resp c) with
  | spacemgmt.OrgMgrGetOrgGUID orgName => Ok (orgName +:+ "-guid")
  | spacemgmt.OrgMgrFindOrg orgName =>
      Ok {| Org_Name := orgName; Org_Guid := orgName +:+ "-guid" |}
  | spacemgmt.ClientListSpacesByQuery _ => Ok [space_dev; space_legacy]
  | spacemgmt.ClientUpdateSpace _ _ _ _ => Ok tt
  | spacemgmt.ClientCreateSpace _ _ => Ok tt
  | spacemgmt.ClientDeleteSpace _ _ _ => Ok tt
  | spacemgmt.CfgGetSpaceConfigs =>
      Ok [{| spacemgmt.SpaceConfig_Org := "test-org";
             spacemgmt.SpaceConfig_Space := "dev";
             spacemgmt.SpaceConfig_AllowSSH := true |}]
  | spacemgmt.CfgSpaces => Ok [demoSpacesConfig]
  end.

Definition demoSpaceManager (peek : bool) : spacemgmt.DefaultManager :=
  {| spacemgmt.Remote := demoSpaceWorld; spacemgmt.Peek := peek |}.

(** Every update of a space among the calls sets SSH as one of the
    configurations asks for a space of that name. *)
Definition updatesAsConfigured (spaceConfigs : list spacemgmt.SpaceConfig)
    (new : list spacemgmt.call) : Prop :=
  Forall (λ c, ∀ guid name ssh orgGUID,
            c = spacemgmt.ClientUpdateSpace guid name ssh orgGUID →
            ∃ input, input ∈ spaceConfigs ∧
                     spacemgmt.SpaceConfig_Space input = name ∧
                     spacemgmt.SpaceConfig_AllowSSH input = ssh)
         new.


(* ------------------------------------------------------------------ *)
(** ** The role holders a run has seen *)

(** What a listing of the holders of a role answered, when [c] is such a
    listing made after the calls [h]; nothing for a listing that failed and
    for any other call. *)
Definition roleHolders (w : World) (h : list call) (c : call) : list CFUser :=
  match c return result (resp c) → list CFUser with
  | ClientList _ _ => λ r, match r with Ok users => users | Err _ => [] end
  | _ => λ _, []
  end (w h c).

(** The role holders that the listings among the calls [new], made after
    the calls [h], answered. *)
Fixpoint listedUsers (w : World) (h new : list call) : list CFUser :=
  match new with
  | [] => []
  | c :: rest => roleHolders w h c ++ listedUsers w (h ++ [c]) rest
  end.

Definition foldedNames (users : list CFUser) : list string :=
  (λ user, ToLower (User_Username user)) <$> users.

(** [collects m base k]: the map that [k] returns has the keys of [base]
    and the case-folded names of the role holders listed on the way. *)
Definition collects (m : DefaultManager) (base : gmap string string)
  (k : M (gmap string string)) : Prop :=
  ∀ s, ∃ new,
    calls (k s).2 = calls s ++ new ∧
    ∀ userMap, (k s).1 = Ok userMap →
      ∀ x, is_Some (userMap !! x)
           ↔ is_Some (base !! x)
             ∨ x ∈ foldedNames (listedUsers (Remote m) (calls s) new).

(** The remove calls of the cleanup for members outside [usersInRoles]. *)
Definition removesOutside (usersInRoles : gmap string string) (new : list call) : Prop :=
  Forall (λ c, ∃ g userName,
            c = ClientRemoveOrgUserByUsername g userName
            ∧ usersInRoles !! ToLower userName = None) new.
(* ------------------------------------------------------------------ *)
(** ** Running the monad *)

Lemma run_ret {A} (a : A) s : (mret a : M A) s = (Ok a, s).
Proof. reflexivity. Qed.

Lemma run_bind {A B} (m : M A) (f : A → M B) s :
  (m ≫= f) s =
  match m s with
  | (Ok a, s') => f a s'
  | (Err e, s') => (Err e, s')
  end.
Proof. reflexivity. Qed.

Lemma run_perform w c s :
  perform w c s = (w (calls s) c, {| calls := calls s ++ [c]; heap := heap s |}).
Proof. reflexivity. Qed.

Lemma issued_app {A} (m : M A) s new :
  calls (m s).2 = calls s ++ new → issued m s = new.
Proof. intros E. unfold issued. rewrite E. apply drop_app_length. Qed.

(* ------------------------------------------------------------------ *)
(** ** Properties of the calls a computation issues

    [Q] is a property of call sequences that holds of the empty sequence and
    is kept by concatenation, so that it passes through sequencing and
    loops. *)

Section Emits.
Variable Q : list call → Prop.
Hypothesis Q_nil : Q [].
Hypothesis Q_app : ∀ a b, Q a → Q b → Q (a ++ b).

Local Abbreviation emits := (emits Q).

Lemma emits_ret {A} (a : A) : emits (mret a).
Proof using Q_nil. intros s. exists []. by rewrite app_nil_r. Qed.

Lemma emits_fail {A} e : emits (@fail A e).
Proof using Q_nil. intros s. exists []. by rewrite app_nil_r. Qed.

Lemma emits_bind {A B} (m : M A) (f : A → M B) :
  emits m → (∀ a, emits (f a)) → emits (m ≫= f).
Proof using Q_nil Q_app.
  intros Hm Hf s. rewrite run_bind.
  destruct (Hm s) as (n1 & E1 & Q1).
  destruct (m s) as [[a|e] s1]; simpl in *.
  - destruct (Hf a s1) as (n2 & E2 & Q2).
    exists (n1 ++ n2). rewrite E2, E1, app_assoc. auto.
  - exists n1. auto.
Qed.

Lemma emits_wrap {A} (m : M A) msg : emits m → emits (wrap m msg).
Proof.
  intros Hm s. destruct (Hm s) as (n & E & HQ). exists n. split; [|done].
  unfold wrap. by destruct (m s) as [[a|e] s1].
Qed.

Lemma emits_attempt {A} (m : M A) : emits m → emits (attempt m).
Proof.
  intros Hm s. destruct (Hm s) as (n & E & HQ). exists n. split; [|done].
  unfold attempt. by destruct (m s) as [r s1].
Qed.

Lemma emits_perform w c : Q [c] → emits (perform w c).
Proof. intros Hc s. by exists [c]. Qed.

Lemma emits_readMap l : emits (readMap l).
Proof using Q_nil. intros s. exists []. by rewrite app_nil_r. Qed.

Lemma emits_newMap v : emits (newMap v).
Proof using Q_nil. intros s. exists []. by rewrite app_nil_r. Qed.

Lemma emits_writeEntry l k v : emits (writeEntry l k v).
Proof using Q_nil.
  intros s. exists []. rewrite app_nil_r. unfold writeEntry.
  by destruct (heap s !! l).
Qed.

(** The list methods issue at most their one list call. *)
Lemma emits_ListRole r m guid :
  Q [ClientList r guid] → emits (ListRole r m guid).
Proof using Q_nil Q_app.
  intros Hc. unfold ListRole. destruct (Peek m && Contains guid (dryRunMarker r)).
  - apply emits_ret.
  - apply emits_bind; [|intros; apply emits_ret].
    by apply (emits_perform _ (ClientList r guid)).
Qed.

(** An add issues nothing, the org association alone, or the org
    association followed by the role association. *)
Lemma emits_AssociateRole r m input userName :
  Q [ClientAssociateOrgUserByUsername (OrgGUID input) userName] →
  Q [ClientAssociateOrgUserByUsername (OrgGUID input) userName;
     ClientAssociateByUsername r
       (if isSpaceRole r then SpaceGUID input else OrgGUID input) userName] →
  emits (AssociateRole r m input userName).
Proof using Q_nil.
  intros H1 H2 s. unfold AssociateRole, AddUserToOrg.
  destruct (Peek m).
  - exists []. by rewrite app_nil_r.
  - rewrite run_bind, run_perform.
    destruct (Remote m (calls s) _) as [[]|e]; simpl.
    + eexists. split; [|exact H2]. by rewrite <- app_assoc.
    + eexists. split; [reflexivity | exact H1].
Qed.

Lemma emits_RemoveRole r m input userName :
  Q [ClientRemoveByUsername r
       (if isSpaceRole r then SpaceGUID input else OrgGUID input) userName] →
  emits (RemoveRole r m input userName).
Proof using Q_nil.
  intros H. unfold RemoveRole. destruct (Peek m);
    [apply emits_ret|].
  by apply (emits_perform _ (ClientRemoveByUsername _ _ _)).
Qed.

(** The steps of a reconciliation, when [Q] admits the listings, the group
    resolution, the provisionings and the adds of the binding. *)
Section Binding.
Variables (m : DefaultManager) (input : UpdateUsersInput).
Hypothesis Q_list : ∀ r guid, Q [ClientList r guid].
Hypothesis Q_resolve : ∀ groups, Q [LdapResolveMembers groups].
Hypothesis Q_create : ∀ a b c d, Q [UAAMgrCreateExternalUser a b c d].
Hypothesis Q_add : ∀ userName, emits (AddUser m input userName).

Lemma emits_ListUsers : emits (ListUsers m input).
Proof using Q_nil Q_app Q_list. apply emits_ListRole. apply Q_list. Qed.

Lemma emits_SyncInternalUsers_loop users roleUsers uaaUsers :
  emits (SyncInternalUsers_loop m users roleUsers uaaUsers input).
Proof using Q_nil Q_app Q_add.
  revert roleUsers. induction users as [|u rest IH]; intros roleUsers; simpl.
  - apply emits_ret.
  - apply emits_bind; [apply emits_readMap|]. intros directory.
    destruct (directory !! ToLower u); [|apply emits_fail].
    destruct (roleUsers !! ToLower u); [apply IH|].
    apply emits_bind; [apply Q_add | intros; apply IH].
Qed.

Lemma emits_samlAddOrMark userEmail roleUsers :
  emits (samlAddOrMark m userEmail roleUsers input).
Proof using Q_nil Q_app Q_add.
  unfold samlAddOrMark. destruct (roleUsers !! ToLower userEmail).
  - apply emits_ret.
  - apply emits_bind; [apply Q_add | intros; apply emits_ret].
Qed.

Lemma emits_SyncSamlUsers_loop users roleUsers uaaUsers :
  emits (SyncSamlUsers_loop m users roleUsers uaaUsers input).
Proof using Q_nil Q_app Q_add Q_create.
  revert roleUsers. induction users as [|u rest IH]; intros roleUsers; simpl.
  - apply emits_ret.
  - apply emits_bind; [apply emits_readMap|]. intros directory.
    destruct (directory !! ToLower u).
    + apply emits_bind; [apply emits_samlAddOrMark | intros; apply IH].
    + apply emits_bind.
      { apply emits_attempt, (emits_perform _ (UAAMgrCreateExternalUser _ _ _ _)).
      apply Q_create. }
      intros [[]|e]; [|apply IH].
      apply emits_bind; [apply emits_writeEntry|]. intros _.
      apply emits_bind; [apply emits_samlAddOrMark | intros; apply IH].
Qed.

Lemma emits_SyncLdapUsers roleUsers uaaUsers :
  emits (SyncLdapUsers m roleUsers uaaUsers input).
Proof using Q_nil Q_app Q_add Q_resolve.
  unfold SyncLdapUsers. apply emits_bind.
  - apply (emits_perform _ (LdapResolveMembers _)). apply Q_resolve.
  - intros members. apply emits_SyncInternalUsers_loop.
Qed.

Lemma emits_RemoveUsers_loop names :
  (∀ userName, emits (RemoveUser m input userName)) →
  emits (RemoveUsers_loop m names input).
Proof using Q_nil Q_app.
  intros Hrm. induction names as [|u rest IH]; simpl.
  - apply emits_ret.
  - apply emits_bind; [apply Hrm | intros; apply IH].
Qed.

Lemma emits_RemoveUsers roleUsers :
  (RemoveUsers_flag input = true → ∀ userName, emits (RemoveUser m input userName)) →
  emits (RemoveUsers m roleUsers input).
Proof using Q_nil Q_app.
  intros Hrm. unfold RemoveUsers. destruct (RemoveUsers_flag input).
  - apply emits_RemoveUsers_loop. by apply Hrm.
  - apply emits_ret.
Qed.

Lemma emits_SyncUsers uaaUsers :
  (RemoveUsers_flag input = true → ∀ userName, emits (RemoveUser m input userName)) →
  emits (SyncUsers m uaaUsers input).
Proof using Q_nil Q_app Q_add Q_create Q_list Q_resolve.
  intros Hrm. unfold SyncUsers.
  apply emits_bind; [apply emits_ListUsers|]. intros ru0.
  apply emits_bind; [apply emits_SyncLdapUsers|]. intros ru1.
  apply emits_bind; [apply emits_SyncInternalUsers_loop|]. intros ru2.
  apply emits_bind; [apply emits_SyncSamlUsers_loop|]. intros ru3.
  by apply emits_RemoveUsers.
Qed.
End Binding.
End Emits.

(* ------------------------------------------------------------------ *)
(** ** Facts on the predicates *)

Lemma noRemove_nil : noRemove [].
Proof. constructor. Qed.

Lemma noRemove_app a b : noRemove a → noRemove b → noRemove (a ++ b).
Proof. intros. by apply Forall_app. Qed.

Lemma noRemove_one c : isRemove c = false → noRemove [c].
Proof. intros. by repeat constructor. Qed.

Lemma twoPhase_nil orgGUID : twoPhase orgGUID [].
Proof. intros pre r g u post E. by destruct pre. Qed.

Lemma twoPhase_app orgGUID a b :
  twoPhase orgGUID a → twoPhase orgGUID b → twoPhase orgGUID (a ++ b).
Proof.
  intros Ha Hb pre r g u post E.
  apply app_eq_inv in E as [(k & E1 & E2) | (k & E1 & E2)].
  - destruct k as [|c k]; simpl in E2.
    + destruct (Hb [] r g u post) as (pre' & E'); [by rewrite <- E2|].
      by destruct pre'.
    + inversion E2; subst. by apply (Ha pre r g u k).
  - destruct (Hb k r g u post E2) as (pre' & ->).
    exists (a ++ pre'). by rewrite E1, app_assoc.
Qed.

Lemma twoPhase_one orgGUID c : isRoleAdd c = false → twoPhase orgGUID [c].
Proof.
  intros Hc pre r g u post E. destruct pre as [|c' pre].
  - inversion E; subst. discriminate.
  - inversion E as [[E1 E2]]. by destruct pre.
Qed.

Lemma twoPhase_pair orgGUID userName r guid :
  twoPhase orgGUID [ClientAssociateOrgUserByUsername orgGUID userName;
                    ClientAssociateByUsername r guid userName].
Proof.
  intros pre r' g u post E. destruct pre as [|c1 [|c2 pre]].
  - inversion E.
  - inversion E; subst. by exists [].
  - inversion E as [[E1 E2 E3]]. by destruct pre.
Qed.

(* ------------------------------------------------------------------ *)
(** ** Removal is gated by the flag *)

Lemma SyncUsers_noRemove m uaaUsers input :
  RemoveUsers_flag input = false → emits noRemove (SyncUsers m uaaUsers input).
Proof.
  intros Hflag.
  apply emits_SyncUsers; auto using noRemove_nil, noRemove_app;
    try (intros; by apply noRemove_one).
  - intros u. apply emits_AssociateRole; [apply noRemove_nil | |];
      by repeat constructor.
  - congruence.
Qed.

(** C5: when the binding has [RemoveUsers] false, [RemoveUsers] returns nil
    without touching the state, whatever is left in the role-user map, and a
    whole reconciliation issues no remove call, whoever holds the role. *)
Theorem C5_no_remove_without_flag (m : DefaultManager) (uaaUsers : loc)
    (input : UpdateUsersInput) :
  RemoveUsers_flag input = false →
  (∀ roleUsers s, RemoveUsers m roleUsers input s = (Ok tt, s)) ∧
  (∀ s, noRemove (issued (SyncUsers m uaaUsers input) s)).
Proof.
  intros Hflag. split.
  - intros roleUsers s. unfold RemoveUsers. by rewrite Hflag.
  - intros s. destruct (SyncUsers_noRemove m uaaUsers input Hflag s) as (new & E & H).
    by rewrite (issued_app _ _ _ E).
Qed.

Lemma C5_witness :
  RemoveUsers_flag (devBinding ["bob"] [] false) = false ∧
  RemoveUsers (tableManager scenario false) {["carol" := "carol-guid"]}
     (devBinding ["bob"] [] false) (loaded scenario) = (Ok tt, loaded scenario) ∧
  noRemove (issued (SyncUsers (tableManager scenario false) 0
                      (devBinding ["bob"] [] false)) (loaded scenario)).
Proof.
  split; [reflexivity|].
  destruct (C5_no_remove_without_flag (tableManager scenario false) 0
              (devBinding ["bob"] [] false) eq_refl) as [H1 H2].
  split; [apply H1 | apply H2].
Defined.

(* ------------------------------------------------------------------ *)
(** ** Two-phase add *)

Lemma AssociateRole_run r m input userName s :
  AssociateRole r m input userName s =
  if Peek m then (Ok tt, s)
  else
    let orgCall := ClientAssociateOrgUserByUsername (OrgGUID input) userName in
    let roleCall :=
      ClientAssociateByUsername r
        (if isSpaceRole r then SpaceGUID input else OrgGUID input) userName in
    match Remote m (calls s) orgCall with
    | Err e => (Err e, {| calls := calls s ++ [orgCall]; heap := heap s |})
    | Ok _ => (Remote m (calls s ++ [orgCall]) roleCall,
               {| calls := calls s ++ [orgCall; roleCall]; heap := heap s |})
    end.
Proof.
  unfold AssociateRole, AddUserToOrg. destruct (Peek m); [reflexivity|].
  rewrite run_bind, run_perform.
  destruct (Remote m (calls s) _) as [[]|e]; [|reflexivity].
  rewrite run_perform. simpl. by rewrite <- app_assoc.
Qed.

Lemma AddUser_twoPhase m input userName :
  emits (twoPhase (OrgGUID input)) (AddUser m input userName).
Proof.
  apply emits_AssociateRole.
  - apply twoPhase_nil.
  - by apply twoPhase_one.
  - apply twoPhase_pair.
Qed.

Lemma SyncUsers_twoPhase m uaaUsers input :
  emits (twoPhase (OrgGUID input)) (SyncUsers m uaaUsers input).
Proof.
  apply emits_SyncUsers; auto using twoPhase_nil, twoPhase_app;
    try (intros; by apply twoPhase_one).
  - apply AddUser_twoPhase.
  - intros _ u. apply emits_RemoveRole; [apply twoPhase_nil|].
    by apply twoPhase_one.
Qed.

(** C7: an associate operation of any of the six roles does nothing under
    dry-run; otherwise it first calls the org association for that user, and
    issues the role association only when that call succeeded, so that a
    failure of the org association is returned with no role call made.  In
    the calls of a whole reconciliation every role association comes
    directly after the org association of the same user. *)
Theorem C7_two_phase_add (m : DefaultManager) (input : UpdateUsersInput) :
  (∀ r userName s,
     AssociateRole r m input userName s =
     if Peek m then (Ok tt, s)
     else
       let orgCall := ClientAssociateOrgUserByUsername (OrgGUID input) userName in
       let roleCall :=
         ClientAssociateByUsername r
           (if isSpaceRole r then SpaceGUID input else OrgGUID input) userName in
       match Remote m (calls s) orgCall with
       | Err e => (Err e, {| calls := calls s ++ [orgCall]; heap := heap s |})
       | Ok _ => (Remote m (calls s ++ [orgCall]) roleCall,
                  {| calls := calls s ++ [orgCall; roleCall]; heap := heap s |})
       end) ∧
  (∀ uaaUsers s,
     twoPhase (OrgGUID input) (issued (SyncUsers m uaaUsers input) s)).
Proof.
  split.
  - intros. apply AssociateRole_run.
  - intros uaaUsers s.
    destruct (SyncUsers_twoPhase m uaaUsers input s) as (new & E & H).
    by rewrite (issued_app _ _ _ E).
Qed.

(* ------------------------------------------------------------------ *)
(** ** Dry-run placeholders *)

Lemma HasPrefix_app s t : HasPrefix (s +:+ t) s = true.
Proof.
  induction s as [|c s IH]; simpl; [by destruct t|].
  rewrite bool_decide_eq_true_2 by done. exact IH.
Qed.

Lemma Contains_prefix s sub : HasPrefix s sub = true → Contains s sub = true.
Proof. intros H. destruct s; simpl in *; by rewrite H. Qed.

Lemma Contains_cons c s sub : Contains s sub = true → Contains (String c s) sub = true.
Proof. intros H. simpl. rewrite H. apply orb_true_r. Qed.

Lemma Contains_app_l a s sub : Contains s sub = true → Contains (a +:+ s) sub = true.
Proof. intros H. induction a as [|c a IH]; simpl; [done|]. by apply Contains_cons. Qed.

Lemma Contains_middle a b c : Contains (a +:+ b +:+ c) b = true.
Proof. apply Contains_app_l, Contains_prefix, HasPrefix_app. Qed.

Lemma placeholder_space_marker spaceName :
  Contains (spaceName +:+ "-dry-run-space-guid") "dry-run-space-guid" = true.
Proof. by apply Contains_app_l. Qed.

Lemma firstNamed_None spaces spaceName :
  (∀ sp, sp ∈ spaces → Space_Name sp ≠ spaceName) →
  space.firstNamed spaces spaceName = None.
Proof.
  induction spaces as [|sp rest IH]; intros H; simpl; [done|].
  rewrite bool_decide_eq_false_2 by (apply H; left).
  apply IH. intros sp' Hin. apply H. by right.
Qed.

(** C9: when the org is found and none of its spaces has the name asked
    for, [FindSpace] under dry-run returns the placeholder, whose GUIDs are
    the space name followed by "-dry-run-space-guid" and the org name
    followed by "-dry-run-org-guid"; without dry-run it returns the
    not-found error.  Under dry-run, listing the holders of a space role on
    the placeholder's GUID returns the empty membership and makes no call. *)
Theorem C9_dry_run_placeholder (sm : space.DefaultManager) (m : DefaultManager)
    (orgName spaceName orgGUID : string) (spaces : list Space) (s : state) :
  space.Remote sm (calls s) (OrgMgrGetOrgGUID orgName) = Ok orgGUID →
  space.Remote sm (calls s ++ [OrgMgrGetOrgGUID orgName])
    (ClientListSpacesByQuery orgGUID) = Ok spaces →
  (∀ sp, sp ∈ spaces → Space_Name sp ≠ spaceName) →
  (space.Peek sm = true →
     (space.FindSpace sm orgName spaceName s).1 = Ok (placeholder orgName spaceName)) ∧
  (space.Peek sm = false →
     (space.FindSpace sm orgName spaceName s).1 =
     Err (Errorf ("space [" +:+ spaceName +:+ "] not found in org [" +:+ orgName +:+ "]"))) ∧
  (Peek m = true →
     ∀ r s', isSpaceRole r = true →
       ListRole r m (Space_Guid (placeholder orgName spaceName)) s' = (Ok ∅, s')).
Proof.
  intros Horg Hspaces Hnone. unfold space.FindSpace, space.ListSpaces.
  rewrite run_bind, run_perform, Horg, run_bind, run_perform. simpl.
  rewrite Hspaces, (firstNamed_None _ _ Hnone).
  split; [|split].
  - by intros ->.
  - by intros ->.
  - intros Hpeek r s' Hr. unfold ListRole, dryRunMarker. rewrite Hpeek, Hr. simpl.
    by rewrite placeholder_space_marker.
Qed.

Lemma C9_witness :
  (space.FindSpace {| space.Remote := tableWorld emptyOrg; space.Peek := true |}
     "test-org" "qa" initial).1
  = Ok {| Space_Name := "qa"; Space_Guid := "qa-dry-run-space-guid";
          Space_OrganizationGuid := "test-org-dry-run-org-guid";
          Space_AllowSSH := false |} ∧
  (space.FindSpace {| space.Remote := tableWorld emptyOrg; space.Peek := false |}
     "test-org" "qa" initial).1
  = Err (Errorf "space [qa] not found in org [test-org]") ∧
  ListSpaceDevelopers (tableManager emptyOrg true) "qa-dry-run-space-guid" initial
  = (Ok ∅, initial).
Proof.
  split; [|split].
  - apply (C9_dry_run_placeholder
             {| space.Remote := tableWorld emptyOrg; space.Peek := true |}
             (tableManager emptyOrg true) "test-org" "qa" "test-org-guid" [] initial
             eq_refl eq_refl).
    + intros sp Hin. inversion Hin.
    + reflexivity.
  - apply (C9_dry_run_placeholder
             {| space.Remote := tableWorld emptyOrg; space.Peek := false |}
             (tableManager emptyOrg true) "test-org" "qa" "test-org-guid" [] initial
             eq_refl eq_refl).
    + intros sp Hin. inversion Hin.
    + reflexivity.
  - apply (C9_dry_run_placeholder
             {| space.Remote := tableWorld emptyOrg; space.Peek := true |}
             (tableManager emptyOrg true) "test-org" "qa" "test-org-guid" [] initial
             eq_refl eq_refl).
    + intros sp Hin. inversion Hin.
    + reflexivity.
    + reflexivity.
Defined.

(** C10: under dry-run, a list operation whose GUID contains
    "dry-run-space-guid" (space roles) or "dry-run-org-guid" (org roles)
    anywhere returns the empty membership and leaves the state as it was,
    whether or not the GUID is a placeholder's; without dry-run every list
    operation issues its list call, whatever the GUID; and under dry-run a
    GUID without the marker is listed remotely as well. *)
Theorem C10_placeholder_by_substring (r : Role) (m : DefaultManager)
    (guid : string) (s : state) :
  (Peek m = true → isSpaceRole r = true →
     Contains guid "dry-run-space-guid" = true → ListRole r m guid s = (Ok ∅, s)) ∧
  (Peek m = true → isSpaceRole r = false →
     Contains guid "dry-run-org-guid" = true → ListRole r m guid s = (Ok ∅, s)) ∧
  (Peek m = false → issued (ListRole r m guid) s = [ClientList r guid]) ∧
  (Contains guid (if isSpaceRole r then "dry-run-space-guid" else "dry-run-org-guid")
     = false → issued (ListRole r m guid) s = [ClientList r guid]).
Proof.
  unfold ListRole, dryRunMarker. split; [|split; [|split]].
  - intros -> -> ->. reflexivity.
  - intros -> -> ->. reflexivity.
  - intros ->. simpl. apply issued_app. rewrite run_bind, run_perform.
    by destruct (Remote m (calls s) _).
  - intros ->. rewrite andb_false_r. apply issued_app. rewrite run_bind, run_perform.
    by destruct (Remote m (calls s) _).
Qed.

Lemma C10_witness :
  ListSpaceAuditors (tableManager emptyOrg true) "xdry-run-space-guidy" initial
    = (Ok ∅, initial) ∧
  ListOrgManagers (tableManager emptyOrg true) "0dry-run-org-guid9" initial
    = (Ok ∅, initial) ∧
  issued (ListSpaceAuditors (tableManager emptyOrg false) "xdry-run-space-guidy") initial
    = [ClientList SpaceAuditor "xdry-run-space-guidy"] ∧
  issued (ListOrgManagers (tableManager emptyOrg true) "dry-run-space-guid") initial
    = [ClientList OrgManager "dry-run-space-guid"].
Proof.
  split; [|split; [|split]].
  - destruct (C10_placeholder_by_substring SpaceAuditor (tableManager emptyOrg true)
                "xdry-run-space-guidy" initial) as (H & _).
    apply H; reflexivity.
  - destruct (C10_placeholder_by_substring OrgManager (tableManager emptyOrg true)
                "0dry-run-org-guid9" initial) as (_ & H & _).
    apply H; reflexivity.
  - destruct (C10_placeholder_by_substring SpaceAuditor (tableManager emptyOrg false)
                "xdry-run-space-guidy" initial) as (_ & _ & H & _).
    apply H; reflexivity.
  - destruct (C10_placeholder_by_substring OrgManager (tableManager emptyOrg true)
                "dry-run-space-guid" initial) as (_ & _ & _ & H).
    apply H; reflexivity.
Defined.

(* ------------------------------------------------------------------ *)
(** ** The cleanup of org users *)

Section EmitsCleanup.
Variable Q : list call → Prop.
Hypothesis Q_nil : Q [].
Hypothesis Q_app : ∀ a b, Q a → Q b → Q (a ++ b).
Variable m : DefaultManager.

Lemma emits_usersInOrgRoles_spaces orgName spaces userMap :
  (∀ g, Q [ClientList SpaceAuditor g]) → (∀ g, Q [ClientList SpaceManager g]) →
  emits Q (usersInOrgRoles_spaces m orgName spaces userMap).
Proof using Q_nil Q_app.
  intros Ha Hm. revert userMap.
  induction spaces as [|sp rest IH]; intros userMap; simpl.
  - by apply emits_ret.
  - repeat (apply emits_bind; [done | done | | intros ?]);
      try (apply emits_wrap, emits_ListRole; done).
    apply IH.
Qed.

Lemma emits_usersInOrgRoles orgName orgGUID :
  (∀ r g, r ≠ SpaceDeveloper → Q [ClientList r g]) →
  (∀ g, Q [ClientListSpacesByQuery g]) →
  emits Q (usersInOrgRoles m orgName orgGUID).
Proof using Q_nil Q_app.
  intros Hl Hs. unfold usersInOrgRoles.
  repeat (apply emits_bind; [done | done | | intros ?]);
    try (apply emits_wrap, emits_ListRole; try done; by apply Hl).
  - by apply emits_wrap, (emits_perform _ _ (ClientListSpacesByQuery _)).
  - apply emits_usersInOrgRoles_spaces; intros; by apply Hl.
Qed.

End EmitsCleanup.

(** The union is built without ever listing the space developers. *)
Lemma usersInOrgRoles_no_developer_list m orgName orgGUID :
  emits (Forall (λ c, isDeveloperList c = false)) (usersInOrgRoles m orgName orgGUID).
Proof.
  apply emits_usersInOrgRoles.
  - constructor.
  - intros. by apply Forall_app.
  - intros r g Hr. repeat constructor. by destruct r.
  - intros g. by repeat constructor.
Qed.

(** C1: the code does not keep the members the claim says it keeps.  The
    union of [usersInOrgRoles] is built without any listing of space
    developers, whatever the collaborators answer; and at the org whose
    member dave is a developer of space "dev" and nothing else, the cleanup
    lists the space auditors twice and removes dave from the org, while
    erin, a space auditor, is kept. *)
Theorem C1_space_developers_removed :
  (∀ m orgName orgGUID s,
     Forall (λ c, isDeveloperList c = false)
       (issued (usersInOrgRoles m orgName orgGUID) s)) ∧
  cfUser "dave" ∈ T_members developerOnly SpaceDeveloper "dev-guid" ∧
  cleanupOrgUsers (tableManager developerOnly false) (orgConfig "test-org" true) initial
  = (Ok tt,
     {| calls := [OrgMgrFindOrg "test-org";
                  ClientListOrgUsers "test-org-guid";
                  ClientList OrgAuditor "test-org-guid";
                  ClientList OrgManager "test-org-guid";
                  ClientList OrgBillingManager "test-org-guid";
                  ClientListSpacesByQuery "test-org-guid";
                  ClientList SpaceAuditor "dev-guid";
                  ClientList SpaceAuditor "dev-guid";
                  ClientList SpaceManager "dev-guid";
                  ClientRemoveOrgUserByUsername "test-org-guid" "dave"];
        heap := [] |}).
Proof.
  split; [|split].
  - intros m orgName orgGUID s.
    destruct (usersInOrgRoles_no_developer_list m orgName orgGUID s) as (new & E & H).
    by rewrite (issued_app _ _ _ E).
  - left.
  - vm_compute. reflexivity.
Qed.









(* ------------------------------------------------------------------ *)
(** ** Failures: what aborts a reconciliation and what does not *)

Section FailFast.
Variable w : World.







End FailFast.

Section FailFastBinding.
Variables (m : DefaultManager) (input : UpdateUsersInput).








End FailFastBinding.




(* ------------------------------------------------------------------ *)
(** ** Idempotence *)

Lemma ListRole_heap r m guid s : heap (ListRole r m guid s).2 = heap s.
Proof.
  unfold ListRole. destruct (Peek m && _); [done|].
  rewrite run_bind, run_perform. by destruct (Remote m _ _).
Qed.

Lemma ListRole_reads r m guid :
  emits (Forall (λ c, isRead c = true)) (ListRole r m guid).
Proof.
  apply emits_ListRole; [constructor | intros; by apply Forall_app |].
  by repeat constructor.
Qed.

(** The internal-user loop on principals that all hold the role, no two of
    them the same after case folding: no call is made, and what is left of
    the role-user map is the map without them. *)
Lemma SyncInternalUsers_loop_present m users (roleUsers : gmap string string)
    uaaUsers input s :
  NoDup (ToLower <$> users) →
  (∀ u, u ∈ users → is_Some (roleUsers !! ToLower u)) →
  (SyncInternalUsers_loop m users roleUsers uaaUsers input s).2 = s ∧
  ∀ roleUsers',
    (SyncInternalUsers_loop m users roleUsers uaaUsers input s).1 = Ok roleUsers' →
    dom roleUsers' = dom roleUsers ∖ list_to_set (ToLower <$> users).
Proof.
  revert roleUsers. induction users as [|u rest IH]; intros roleUsers Hnd Hin; simpl.
  - split; [done|]. intros ru' [= <-]. set_solver.
  - rewrite run_bind. unfold readMap at 1. simpl.
    destruct (mapAt s uaaUsers !! ToLower u); [|by split].
    destruct (Hin u) as [g Hg]; [by left|]. rewrite Hg.
    rewrite fmap_cons in Hnd. apply NoDup_cons in Hnd as [Hu Hnd].
    destruct (IH (delete (ToLower u) roleUsers) Hnd) as [Hs Hdom].
    { intros u' Hu'. rewrite lookup_delete_ne; [apply Hin; by right|].
      intros E. apply Hu. rewrite E. by apply list_elem_of_fmap_2. }
    split; [done|]. intros ru' Hru'. rewrite (Hdom ru' Hru'), dom_delete_L.
    set_solver.
Qed.

(** The same for the federated users, each of them in the directory or
    provisioned without failure: the calls made are provisionings only. *)
Lemma SyncSamlUsers_loop_present m users (roleUsers : gmap string string)
    uaaUsers input s r s' :
  NoDup (ToLower <$> users) →
  (∀ u, u ∈ users → is_Some (roleUsers !! ToLower u)) →
  (∀ u, u ∈ users →
     is_Some (mapAt s uaaUsers !! ToLower u) ∨
     ∀ h, Remote m h (UAAMgrCreateExternalUser u u u (LdapOrigin m)) = Ok tt) →
  SyncSamlUsers_loop m users roleUsers uaaUsers input s = (r, s') →
  ∃ new,
    calls s' = calls s ++ new ∧
    Forall (λ c, isCreate c = true) new ∧
    ∀ roleUsers', r = Ok roleUsers' →
      dom roleUsers' = dom roleUsers ∖ list_to_set (ToLower <$> users).
Proof.
  revert roleUsers s.
  induction users as [|u rest IH]; intros roleUsers s Hnd Hin Hdir Hrun;
    simpl in Hrun.
  - inversion Hrun; subst. exists []. rewrite app_nil_r. split; [done|].
    split; [constructor|]. intros ru' [= <-]. set_solver.
  - rewrite fmap_cons in Hnd. apply NoDup_cons in Hnd as [Hu Hnd].
    destruct (Hin u) as [g Hg]; [by left|].
    assert (∀ u', u' ∈ rest → is_Some (delete (ToLower u) roleUsers !! ToLower u'))
      as Hin'.
    { intros u' Hu'. rewrite lookup_delete_ne; [apply Hin; by right|].
      intros E. apply Hu. rewrite E. by apply list_elem_of_fmap_2. }
    rewrite run_bind in Hrun. unfold readMap in Hrun. simpl in Hrun.
    destruct (mapAt s uaaUsers !! ToLower u) eqn:Hlook.
    + rewrite run_bind in Hrun. unfold samlAddOrMark in Hrun.
      rewrite Hg in Hrun. simpl in Hrun.
      destruct (IH (delete (ToLower u) roleUsers) s Hnd Hin') as (new & E & Hc & Hdom);
        [intros u' Hu'; apply Hdir; by right | exact Hrun |].
      exists new. split; [done|]. split; [done|].
      intros ru' Hru'. rewrite (Hdom ru' Hru'), dom_delete_L. set_solver.
    + destruct (Hdir u) as [[v Hv] | Hcreate]; [by left | congruence |].
      rewrite run_bind in Hrun. unfold attempt in Hrun.
      rewrite run_perform, Hcreate, run_bind in Hrun.
      unfold writeEntry in Hrun. simpl in Hrun.
      destruct (heap s !! uaaUsers) as [mp|] eqn:Hmp.
      * rewrite run_bind in Hrun. unfold samlAddOrMark in Hrun.
        rewrite Hg in Hrun. simpl in Hrun.
        match type of Hrun with SyncSamlUsers_loop _ _ _ _ _ ?s2 = _ =>
          destruct (IH (delete (ToLower u) roleUsers) s2 Hnd Hin')
            as (new & E & Hc & Hdom); [|exact Hrun|]
        end.
        { intros u' Hu'. destruct (Hdir u') as [Hsome | Hok]; [by right | | by right].
          left. unfold mapAt in *. simpl. rewrite Hmp in Hsome. simpl in Hsome.
          rewrite list_lookup_insert_eq by (by eapply lookup_lt_Some). simpl.
          rewrite lookup_insert. by case_decide. }
        simpl in E.
        exists (UAAMgrCreateExternalUser u u u (LdapOrigin m) :: new).
        split; [by rewrite E, <- app_assoc|]. split; [by constructor|].
        intros ru' Hru'. rewrite (Hdom ru' Hru'), dom_delete_L. set_solver.
      * inversion Hrun; subst.
        exists [UAAMgrCreateExternalUser u u u (LdapOrigin m)].
        split; [done|]. split; [by repeat constructor|]. intros ru' [=].
Qed.

Lemma noAddRemove_creates new :
  Forall (λ c, isCreate c = true) new → noAddRemove new.
Proof. intros H. eapply Forall_impl; [exact H|]. intros c Hc. by destruct c. Qed.

Lemma noAddRemove_reads new :
  Forall (λ c, isRead c = true) new → noAddRemove new.
Proof. intros H. eapply Forall_impl; [exact H|]. intros c Hc. by destruct c. Qed.

Lemma RemoveUsers_empty m (roleUsers : gmap string string) input s :
  dom roleUsers = ∅ → RemoveUsers m roleUsers input s = (Ok tt, s).
Proof.
  intros Hdom. apply dom_empty_inv_L in Hdom. subst roleUsers.
  unfold RemoveUsers. rewrite map_to_list_empty. by destruct (RemoveUsers_flag input).
Qed.

(** C6 (the claim fails), twice.  First, alice is the only developer and
    the configuration asks for her as an internal user and as a federated
    user: the membership satisfies the configuration, and the
    reconciliation adds her again.  Second, eve@x is the only developer and
    the only principal asked for, the directory does not have her and her
    provisioning fails: the reconciliation removes her. *)
Lemma C6_counterexample :
  (userListToMap (T_members aliceOnly SpaceDeveloper "dev-guid")
     = {["alice" := "alice-guid"]} ∧
   desiredNames (T_groupMembers aliceOnly) (devBinding ["alice"] ["alice"] true)
     = ["alice"; "alice"] ∧
   issued (SyncUsers (tableManager aliceOnly false) 0
             (devBinding ["alice"] ["alice"] true)) (loaded aliceOnly)
     = [ClientList SpaceDeveloper "dev-guid";
        LdapResolveMembers ["space-devs"];
        ClientAssociateOrgUserByUsername "test-org-guid" "alice";
        ClientAssociateByUsername SpaceDeveloper "dev-guid" "alice"]) ∧
  (userListToMap (T_members eveUnknown SpaceDeveloper "dev-guid")
     = {["eve@x" := "eve@x-guid"]} ∧
   desiredNames (T_groupMembers eveUnknown) (devBinding [] ["eve@x"] true)
     = ["eve@x"] ∧
   issued (SyncUsers (tableManager eveUnknown false) 0
             (devBinding [] ["eve@x"] true)) (loaded eveUnknown)
     = [ClientList SpaceDeveloper "dev-guid";
        LdapResolveMembers ["space-devs"];
        UAAMgrCreateExternalUser "eve@x" "eve@x" "eve@x" "saml";
        ClientRemoveByUsername SpaceDeveloper "dev-guid" "eve@x"]).
Proof. split; (split; [|split]); vm_compute; reflexivity. Qed.

(** C6, amended: when the role's membership as listed is exactly the set of
    case-folded desired names, these names are pairwise distinct across the
    three sources, and every federated principal is in the directory or is
    provisioned without failure, the reconciliation issues no add and no
    remove call. *)
Theorem C6_idempotent_when_distinct (m : DefaultManager) (uaaUsers : loc)
    (input : UpdateUsersInput) (s s0 : state) (roleUsers : gmap string string)
    (members : list IdentityRecord) :
  ListUsers m input s = (Ok roleUsers, s0) →
  Remote m (calls s0) (LdapResolveMembers (LdapGroupNames input)) = Ok members →
  dom roleUsers = list_to_set (desiredNames members input) →
  NoDup (desiredNames members input) →
  (∀ u, u ∈ SamlUsers input →
     is_Some (mapAt s uaaUsers !! ToLower u) ∨
     ∀ h, Remote m h (UAAMgrCreateExternalUser u u u (LdapOrigin m)) = Ok tt) →
  noAddRemove (issued (SyncUsers m uaaUsers input) s).
Proof.
  intros Hlist Hres Hdom Hnd Hdir.
  unfold desiredNames in *. rewrite !fmap_app in Hnd, Hdom.
  apply NoDup_app in Hnd as (Hnd1 & Hdis1 & Hnd).
  apply NoDup_app in Hnd as (Hnd2 & Hdis2 & Hnd3).
  rewrite !list_to_set_app_L in Hdom.
  (* the listing *)
  destruct (ListRole_reads (Binding input) m (targetGUID input) s) as (n0 & E0 & R0).
  pose proof (ListRole_heap (Binding input) m (targetGUID input) s) as Hh0.
  fold (ListUsers m input) in E0, Hh0. rewrite Hlist in E0, Hh0. simpl in E0, Hh0.
  set (resolve := LdapResolveMembers (LdapGroupNames input)) in *.
  set (s1 := {| calls := calls s0 ++ [resolve]; heap := heap s0 |}).
  assert (noAddRemove (n0 ++ [resolve])) as Q1.
  { apply Forall_app. split; [by apply noAddRemove_reads | by repeat constructor]. }
  assert (calls s1 = calls s ++ n0 ++ [resolve]) as E1.
  { simpl. by rewrite E0, <- app_assoc. }
  assert (∃ new, calls (SyncUsers m uaaUsers input s).2 = calls s ++ new
                 ∧ noAddRemove new) as (new & E & Q);
    [|by rewrite (issued_app _ _ _ E)].
  unfold SyncUsers. rewrite run_bind, Hlist, run_bind.
  unfold SyncLdapUsers. rewrite run_bind, run_perform. fold resolve. rewrite Hres.
  fold s1.
  (* the members of the groups *)
  destruct (SyncInternalUsers_loop_present m (ir_username <$> members) roleUsers
              uaaUsers input s1) as [Hs1 Hd1]; [done | |].
  { intros u Hu. apply elem_of_dom. rewrite Hdom.
    apply elem_of_union_l, elem_of_list_to_set. by apply list_elem_of_fmap_2. }
  destruct (SyncInternalUsers_loop m (ir_username <$> members) roleUsers uaaUsers input s1)
    as [[ru1|e] s1']; simpl in Hs1; subst s1'; [|by exists (n0 ++ [resolve])].
  specialize (Hd1 ru1 eq_refl).
  (* the internal users *)
  rewrite run_bind. unfold SyncInternalUsers.
  destruct (SyncInternalUsers_loop_present m (Users input) ru1 uaaUsers input s1)
    as [Hs2 Hd2]; [done | |].
  { intros u Hu. apply elem_of_dom. rewrite Hd1, Hdom.
    apply list_elem_of_fmap_2 with (f := ToLower) in Hu.
    apply elem_of_difference. split.
    - apply elem_of_union_r, elem_of_union_l. by apply elem_of_list_to_set.
    - rewrite elem_of_list_to_set. intros Hu1. apply (Hdis1 _ Hu1).
      apply elem_of_app. by left. }
  destruct (SyncInternalUsers_loop m (Users input) ru1 uaaUsers input s1)
    as [[ru2|e] s2']; simpl in Hs2; subst s2'; [|by exists (n0 ++ [resolve])].
  specialize (Hd2 ru2 eq_refl).
  (* the federated users *)
  rewrite run_bind. unfold SyncSamlUsers.
  destruct (SyncSamlUsers_loop m (SamlUsers input) ru2 uaaUsers input s1)
    as [r3 s3] eqn:Hrun3.
  destruct (SyncSamlUsers_loop_present m (SamlUsers input) ru2 uaaUsers input s1 r3 s3)
    as (n3 & E3 & C3 & Hd3); [done | | | done |].
  { intros u Hu. apply elem_of_dom. rewrite Hd2, Hd1, Hdom.
    apply list_elem_of_fmap_2 with (f := ToLower) in Hu.
    rewrite !elem_of_difference, !elem_of_union, !elem_of_list_to_set.
    split; [split; [by auto|] |].
    - intros Hu1. apply (Hdis1 _ Hu1). apply elem_of_app. by right.
    - intros Hu2. by apply (Hdis2 _ Hu2). }
  { intros u Hu. unfold mapAt, s1. simpl. rewrite Hh0. by apply Hdir. }
  assert (noAddRemove ((n0 ++ [resolve]) ++ n3)) as Q3.
  { apply Forall_app. split; [done | by apply noAddRemove_creates]. }
  assert (calls s3 = calls s ++ (n0 ++ [resolve]) ++ n3) as E3'.
  { by rewrite E3, E1, <- !app_assoc. }
  destruct r3 as [ru3|e]; [|by exists ((n0 ++ [resolve]) ++ n3)].
  (* nothing is left to remove *)
  rewrite RemoveUsers_empty; [by exists ((n0 ++ [resolve]) ++ n3)|].
  rewrite (Hd3 ru3 eq_refl), Hd2, Hd1, Hdom. set_solver.
Qed.

Lemma C6_witness :
  noAddRemove (issued (SyncUsers (tableManager settled false) 0
                         (devBinding ["Alice"] ["bob@x"] true)) (loaded settled)) ∧
  issued (SyncUsers (tableManager settled false) 0
            (devBinding ["Alice"] ["bob@x"] true)) (loaded settled)
  = [ClientList SpaceDeveloper "dev-guid";
     LdapResolveMembers ["space-devs"];
     UAAMgrCreateExternalUser "bob@x" "bob@x" "bob@x" "saml"].
Proof.
  split; [|vm_compute; reflexivity].
  apply (C6_idempotent_when_distinct (tableManager settled false) 0
           (devBinding ["Alice"] ["bob@x"] true) (loaded settled)
           {| calls := [UAAMgrListUsers; ClientList SpaceDeveloper "dev-guid"];
              heap := [T_uaaUsers settled] |}
           (userListToMap [cfUser "alice"; cfUser "bob@x"; cfUser "Carol"])
           [identity "carol"]).
  - reflexivity.
  - reflexivity.
  - vm_compute. reflexivity.
  - apply (bool_decide_unpack (NoDup _)). vm_compute. exact I.
  - intros u Hu. right. intros h.
    apply list_elem_of_singleton in Hu. subst u. reflexivity.
Defined.

(* ------------------------------------------------------------------ *)
(** ** The order of the steps of a reconciliation *)



Section ProvisionedFirst.
Variable w : World.






End ProvisionedFirst.



Section Grows.
Variables (m : DefaultManager) (input : UpdateUsersInput).

Lemma AddUser_grows userName : emits anyCalls (AddUser m input userName).
Proof. by apply emits_AssociateRole. Qed.




Lemma SyncSamlUsers_grows roleUsers uaaUsers :
  emits anyCalls (SyncSamlUsers m roleUsers uaaUsers input).
Proof. apply emits_SyncSamlUsers_loop; auto using AddUser_grows; done. Qed.

End Grows.

Lemma issued_run {A} (m : M A) s r s' new :
  m s = (r, s') → calls s' = calls s ++ new → issued m s = new.
Proof. intros E H. apply issued_app. by rewrite E. Qed.




(* ------------------------------------------------------------------ *)
(** ** The directory of a run *)

Section Keeps.
Variable R : state → state → Prop.
Hypothesis R_refl : ∀ s, R s s.
Hypothesis R_trans : ∀ s1 s2 s3, R s1 s2 → R s2 s3 → R s1 s3.

Local Abbreviation keeps := (keeps R).

Lemma keeps_ret {A} (a : A) : keeps (mret a).
Proof using R_refl. intros s. apply R_refl. Qed.

Lemma keeps_fail {A} e : keeps (@fail A e).
Proof using R_refl. intros s. apply R_refl. Qed.

Lemma keeps_readMap l : keeps (readMap l).
Proof using R_refl. intros s. apply R_refl. Qed.

Lemma keeps_bind {A B} (m : M A) (f : A → M B) :
  keeps m → (∀ a, keeps (f a)) → keeps (m ≫= f).
Proof using R_trans.
  intros Hm Hf s. rewrite run_bind. specialize (Hm s).
  destruct (m s) as [[a|e] s1]; simpl in *; [|done].
  eapply R_trans; [exact Hm | apply Hf].
Qed.


Lemma keeps_attempt {A} (m : M A) : keeps m → keeps (attempt m).
Proof. intros Hm s. specialize (Hm s). unfold attempt. by destruct (m s) as [r s1]. Qed.

(** Steps that only call collaborators, for a relation that does not look
    at the history. *)
Hypothesis R_call : ∀ s c, R s {| calls := calls s ++ [c]; heap := heap s |}.

Lemma keeps_perform w c : keeps (perform w c).
Proof using R_call. intros s. apply R_call. Qed.

Lemma keeps_ListRole r m guid : keeps (ListRole r m guid).
Proof using R_refl R_trans R_call.
  unfold ListRole. destruct (Peek m && _); [apply keeps_ret|].
  apply keeps_bind; [apply (keeps_perform _ (ClientList _ _)) | intros; apply keeps_ret].
Qed.

Lemma keeps_AddUser m input userName : keeps (AddUser m input userName).
Proof using R_refl R_trans R_call.
  unfold AddUser, AssociateRole, AddUserToOrg. apply keeps_bind.
  - destruct (Peek m); [apply keeps_ret|].
    apply (keeps_perform _ (ClientAssociateOrgUserByUsername _ _)).
  - intros _. destruct (Peek m); [apply keeps_ret|].
    apply (keeps_perform _ (ClientAssociateByUsername _ _ _)).
Qed.

Lemma keeps_samlAddOrMark m userEmail roleUsers input :
  keeps (samlAddOrMark m userEmail roleUsers input).
Proof using R_refl R_trans R_call.
  unfold samlAddOrMark. destruct (roleUsers !! _); [apply keeps_ret|].
  apply keeps_bind; [apply keeps_AddUser | intros; apply keeps_ret].
Qed.

Lemma keeps_SyncInternalUsers_loop m users roleUsers uaaUsers input :
  keeps (SyncInternalUsers_loop m users roleUsers uaaUsers input).
Proof using R_refl R_trans R_call.
  revert roleUsers. induction users as [|u rest IH]; intros roleUsers; simpl.
  - apply keeps_ret.
  - apply keeps_bind; [apply keeps_readMap|]. intros directory.
    destruct (directory !! ToLower u); [|apply keeps_fail].
    destruct (roleUsers !! ToLower u); [apply IH|].
    apply keeps_bind; [apply keeps_AddUser | intros; apply IH].
Qed.

Lemma keeps_SyncLdapUsers m roleUsers uaaUsers input :
  keeps (SyncLdapUsers m roleUsers uaaUsers input).
Proof using R_refl R_trans R_call.
  unfold SyncLdapUsers. apply keeps_bind.
  - apply (keeps_perform _ (LdapResolveMembers _)).
  - intros members. apply keeps_SyncInternalUsers_loop.
Qed.

Lemma keeps_RemoveUsers m roleUsers input : keeps (RemoveUsers m roleUsers input).
Proof using R_refl R_trans R_call.
  unfold RemoveUsers. destruct (RemoveUsers_flag input); [|apply keeps_ret].
  induction (map_to_list roleUsers).*1 as [|u rest IH]; simpl; [apply keeps_ret|].
  apply keeps_bind; [|intros; apply IH].
  unfold RemoveUser, RemoveRole. destruct (Peek m); [apply keeps_ret|].
  apply (keeps_perform _ (ClientRemoveByUsername _ _ _)).
Qed.

End Keeps.


Section DirectoryEffect.
Variables (m : DefaultManager) (uaaUsers : loc) (users : list string).

Lemma directoryEffect_refl s : directoryEffect m uaaUsers users s s.
Proof.
  split; [exists []; by rewrite app_nil_r|]. split; [done|]. split; [done|].
  intros k. by left.
Qed.

Lemma directoryEffect_call s c :
  directoryEffect m uaaUsers users s {| calls := calls s ++ [c]; heap := heap s |}.
Proof.
  split; [by exists [c]|]. split; [done|]. split; [done|]. intros k. by left.
Qed.

Lemma directoryEffect_trans s1 s2 s3 :
  directoryEffect m uaaUsers users s1 s2 → directoryEffect m uaaUsers users s2 s3 →
  directoryEffect m uaaUsers users s1 s3.
Proof.
  intros ([n1 E1] & L1 & F1 & K1) ([n2 E2] & L2 & F2 & K2).
  split; [exists (n1 ++ n2); by rewrite E2, E1, app_assoc|].
  split; [congruence|]. split.
  { intros l Hl. by rewrite F2, F1. }
  intros k. destruct (K2 k) as [Hk2 | (Hin & Hk2 & pre & post & Ec & Hw)].
  - destruct (K1 k) as [Hk1 | (Hin & Hk1 & pre & post & Ec & Hw)].
    + left. congruence.
    + right. split; [done|]. split; [congruence|].
      exists pre, (post ++ n2). split; [|done].
      by rewrite E2, Ec, <- !app_assoc.
  - right. split; [done|]. split; [done|].
    exists (n1 ++ pre), post. rewrite E1 in Ec, Hw. rewrite <- !app_assoc in *.
    by split.
Qed.

(** The one step that writes: a provisioning that succeeded, followed by
    the entry of the new identity. *)
Lemma directoryEffect_provision s u mp :
  u ∈ users →
  heap s !! uaaUsers = Some mp →
  Remote m (calls s) (UAAMgrCreateExternalUser u u u (LdapOrigin m)) = Ok tt →
  directoryEffect m uaaUsers users s
    {| calls := calls s ++ [UAAMgrCreateExternalUser u u u (LdapOrigin m)];
       heap := <[uaaUsers := <[u := samlIdentity m u]> mp]> (heap s) |}.
Proof.
  intros Hu Hmp Hw.
  split; [by eexists|]. split; [apply length_insert|]. split.
  { intros l Hl. simpl. by rewrite list_lookup_insert_ne. }
  intros k. unfold mapAt. simpl. rewrite Hmp.
  rewrite list_lookup_insert_eq by (by eapply lookup_lt_Some). simpl.
  destruct (decide (u = k)) as [<- | Hne].
  - right. split; [done|]. split; [by rewrite lookup_insert_eq|].
    exists [], []. by rewrite app_nil_r.
  - left. by rewrite lookup_insert_ne.
Qed.
End DirectoryEffect.

Lemma SyncSamlUsers_loop_effect m uaaUsers all users roleUsers input :
  users ⊆ all →
  keeps (directoryEffect m uaaUsers all)
    (SyncSamlUsers_loop m users roleUsers uaaUsers input).
Proof.
  pose proof (directoryEffect_refl m uaaUsers all) as Hrefl.
  pose proof (directoryEffect_trans m uaaUsers all) as Htrans.
  pose proof (directoryEffect_call m uaaUsers all) as Hcall.
  revert roleUsers. induction users as [|u rest IH]; intros roleUsers Hsub s; simpl.
  { apply Hrefl. }
  assert (rest ⊆ all) as Hrest by set_solver.
  rewrite run_bind. unfold readMap. simpl.
  destruct (mapAt s uaaUsers !! ToLower u).
  - rewrite run_bind.
    pose proof (keeps_samlAddOrMark _ Hrefl Htrans Hcall m u roleUsers input s) as H1.
    destruct (samlAddOrMark m u roleUsers input s) as [[ru'|e] s1]; simpl in *; [|done].
    eapply Htrans; [exact H1 | by apply IH].
  - rewrite run_bind. unfold attempt. rewrite run_perform.
    destruct (Remote m (calls s) _) as [[]|e] eqn:Hw; cycle 1.
    { eapply Htrans; [apply Hcall | by apply IH]. }
    rewrite run_bind. unfold writeEntry. simpl.
    destruct (heap s !! uaaUsers) as [mp|] eqn:Hmp; [|apply Hcall].
    eapply Htrans.
    { apply (directoryEffect_provision m uaaUsers all s u mp); [set_solver | done..]. }
    rewrite run_bind.
    match goal with |- context [samlAddOrMark _ _ _ _ ?s2] =>
      pose proof (keeps_samlAddOrMark _ Hrefl Htrans Hcall m u roleUsers input s2) as H1;
      destruct (samlAddOrMark m u roleUsers input s2) as [[ru'|e] s1]
    end; simpl in *; [|done].
    eapply Htrans; [exact H1 | by apply IH].
Qed.

(** A reconciliation changes the directory by the entries of the federated
    users it provisioned, and nothing else of the heap. *)
Lemma SyncUsers_effect m uaaUsers input :
  keeps (directoryEffect m uaaUsers (SamlUsers input)) (SyncUsers m uaaUsers input).
Proof.
  pose proof (directoryEffect_refl m uaaUsers (SamlUsers input)) as Hrefl.
  pose proof (directoryEffect_trans m uaaUsers (SamlUsers input)) as Htrans.
  pose proof (directoryEffect_call m uaaUsers (SamlUsers input)) as Hcall.
  unfold SyncUsers.
  apply keeps_bind; [done | by apply keeps_ListRole |]. intros ru0.
  apply keeps_bind; [done | by apply keeps_SyncLdapUsers |]. intros ru1.
  apply keeps_bind; [done | by apply keeps_SyncInternalUsers_loop |]. intros ru2.
  apply keeps_bind; [done | by apply SyncSamlUsers_loop_effect |]. intros ru3.
  by apply keeps_RemoveUsers.
Qed.












(* ------------------------------------------------------------------ *)
(** * Further properties of the code *)

(** ** [userListToMap] *)

Lemma userListToMap_snoc users user :
  userListToMap (users ++ [user])
  = <[ToLower (User_Username user) := User_Guid user]> (userListToMap users).
Proof. unfold userListToMap. by rewrite foldl_app. Qed.

Lemma userListToMap_keys (users : list CFUser) (k : string) :
  is_Some (userListToMap users !! k)
  ↔ ∃ user, user ∈ users ∧ ToLower (User_Username user) = k.
Proof.
  revert k. induction users as [|user users IH] using rev_ind; intros k.
  - split; [by intros [? ?] | by intros (? & H & _); inversion H].
  - rewrite userListToMap_snoc, lookup_insert_is_Some, IH. split.
    + intros [<- | (Hne & u & Hu & <-)].
      * exists user. split; [|done]. apply elem_of_app. right. by left.
      * exists u. split; [|done]. apply elem_of_app. by left.
    + intros (u & Hu & <-). apply elem_of_app in Hu as [Hu | Hu].
      * destruct (decide (ToLower (User_Username user) = ToLower (User_Username u)));
          [by left | right; eauto].
      * apply list_elem_of_singleton in Hu as ->. by left.
Qed.

(** X1: the keys of [userListToMap] are the case-folded user names of the
    list, and of several users whose names fold to the same key the last in
    the list gives the GUID. *)
Theorem userListToMap_keys_and_last (users : list CFUser) :
  (∀ k, is_Some (userListToMap users !! k)
        ↔ ∃ user, user ∈ users ∧ ToLower (User_Username user) = k) ∧
  (∀ pre user post,
     users = pre ++ user :: post →
     (∀ later, later ∈ post →
        ToLower (User_Username later) ≠ ToLower (User_Username user)) →
     userListToMap users !! ToLower (User_Username user) = Some (User_Guid user)).
Proof.
  split.
  - apply userListToMap_keys.
  - intros pre user post. revert users.
    induction post as [|later post IH] using rev_ind; intros users -> Hpost.
    + by rewrite userListToMap_snoc, lookup_insert_eq.
    + rewrite app_comm_cons, app_assoc, userListToMap_snoc.
      rewrite lookup_insert_ne.
      * apply IH; [done|]. intros l Hl. apply Hpost, elem_of_app. by left.
      * apply Hpost, elem_of_app. right. by left.
Qed.

Lemma userListToMap_keys_and_last_witness :
  userListToMap [cfUser "Bob"; cfUser "alice"; cfUser "BOB"] !! "bob" = Some "BOB-guid".
Proof.
  destruct (userListToMap_keys_and_last [cfUser "Bob"; cfUser "alice"; cfUser "BOB"])
    as [_ H].
  apply (H [cfUser "Bob"; cfUser "alice"] (cfUser "BOB") []); [reflexivity|].
  intros later Hl. inversion Hl.
Defined.

(** ** The working role-user map *)

Lemma sameHeap_refl s : sameHeap s s.
Proof. done. Qed.

Lemma sameHeap_trans s1 s2 s3 : sameHeap s1 s2 → sameHeap s2 s3 → sameHeap s1 s3.
Proof. unfold sameHeap. congruence. Qed.

Lemma sameHeap_call s c : sameHeap s {| calls := calls s ++ [c]; heap := heap s |}.
Proof. done. Qed.

Lemma AddUser_sameHeap m input userName s :
  heap (AddUser m input userName s).2 = heap s.
Proof.
  apply (keeps_AddUser sameHeap sameHeap_refl sameHeap_trans sameHeap_call).
Qed.

Lemma SyncInternalUsers_loop_marks m users (roleUsers : gmap string string)
    uaaUsers input s r s' :
  SyncInternalUsers_loop m users roleUsers uaaUsers input s = (r, s') →
  heap s' = heap s ∧
  ∀ roleUsers', r = Ok roleUsers' →
    (∀ u, u ∈ users → is_Some (mapAt s uaaUsers !! ToLower u)) ∧
    (∀ k, roleUsers' !! k
          = if decide (k ∈ ToLower <$> users) then None else roleUsers !! k).
Proof.
  revert roleUsers s. induction users as [|u rest IH]; intros roleUsers s Hrun;
    simpl in Hrun.
  { inversion Hrun; subst. split; [done|]. intros ru' [= <-].
    split; [intros u Hu; inversion Hu | done]. }
  rewrite run_bind in Hrun. unfold readMap in Hrun. simpl in Hrun.
  destruct (mapAt s uaaUsers !! ToLower u) as [v|] eqn:Hdir;
    [|inversion Hrun; subst; split; [done | intros ru' [=]]].
  destruct (roleUsers !! ToLower u) as [g|] eqn:Hrole.
  - destruct (IH _ _ Hrun) as [Hheap Hok]. split; [done|].
    intros ru' ->. destruct (Hok ru' eq_refl) as [Hknown Hlook]. split.
    + intros u' [-> | Hu']%elem_of_cons; [by rewrite Hdir | by apply Hknown].
    + intros k. rewrite Hlook, fmap_cons.
      destruct (decide (k = ToLower u)) as [-> | Hne].
      * rewrite lookup_delete_eq. rewrite (decide_True _ _ (list_elem_of_here _ _)).
        by case_decide.
      * rewrite lookup_delete_ne by done.
        repeat case_decide; try done; set_solver.
  - rewrite run_bind in Hrun.
    pose proof (AddUser_sameHeap m input u s) as Hadd.
    destruct (AddUser m input u s) as [[[]|e] s1]; simpl in Hadd;
      [|inversion Hrun; subst; split; [done | intros ru' [=]]].
    destruct (IH _ _ Hrun) as [Hheap Hok]. split; [congruence|].
    intros ru' ->. destruct (Hok ru' eq_refl) as [Hknown Hlook]. split.
    + intros u' [-> | Hu']%elem_of_cons; [by rewrite Hdir|].
      unfold mapAt in *. rewrite <- Hadd. by apply Hknown.
    + intros k. rewrite Hlook, fmap_cons.
      destruct (decide (k = ToLower u)) as [-> | Hne].
      * rewrite (decide_True _ _ (list_elem_of_here _ _)). by case_decide.
      * repeat case_decide; try done; set_solver.
Qed.



(** ** The calls of one binding *)

(** As [emits], for a property that admits only the binding's own calls
    and only the users that satisfy [P]. *)
Section OwnCalls.
Variable Q : list call → Prop.
Hypothesis Q_nil : Q [].
Hypothesis Q_app : ∀ a b, Q a → Q b → Q (a ++ b).
Variables (m : DefaultManager) (input : UpdateUsersInput) (P : string → Prop).
Hypothesis Q_add : ∀ u, P u → emits Q (AddUser m input u).
Hypothesis Q_create : ∀ u, P u → Q [createCallOf m u].

Lemma own_SyncInternalUsers_loop users roleUsers uaaUsers :
  Forall P users → emits Q (SyncInternalUsers_loop m users roleUsers uaaUsers input).
Proof using Q_nil Q_app Q_add.
  revert roleUsers. induction users as [|u rest IH]; intros roleUsers HP; simpl.
  { by apply emits_ret. }
  apply Forall_cons in HP as [Hu HP].
  apply emits_bind; [done | done | by apply emits_readMap |]. intros directory.
  destruct (directory !! ToLower u); [|by apply emits_fail].
  destruct (roleUsers !! ToLower u); [by apply IH|].
  apply emits_bind; [done | done | by apply Q_add | intros; by apply IH].
Qed.

Lemma own_samlAddOrMark u roleUsers :
  P u → emits Q (samlAddOrMark m u roleUsers input).
Proof using Q_nil Q_app Q_add.
  intros Hu. unfold samlAddOrMark. destruct (roleUsers !! ToLower u).
  - by apply emits_ret.
  - apply emits_bind; [done | done | by apply Q_add | intros; by apply emits_ret].
Qed.

Lemma own_SyncSamlUsers_loop users roleUsers uaaUsers :
  Forall P users → emits Q (SyncSamlUsers_loop m users roleUsers uaaUsers input).
Proof using Q_nil Q_app Q_add Q_create.
  revert roleUsers. induction users as [|u rest IH]; intros roleUsers HP; simpl.
  { by apply emits_ret. }
  apply Forall_cons in HP as [Hu HP].
  apply emits_bind; [done | done | by apply emits_readMap |]. intros directory.
  destruct (directory !! ToLower u).
  - apply emits_bind; [done | done | by apply own_samlAddOrMark | intros; by apply IH].
  - apply emits_bind; [done | done | |].
    { apply emits_attempt, (emits_perform _ _ (UAAMgrCreateExternalUser _ _ _ _)).
      by apply Q_create. }
    intros [[]|e]; [|by apply IH].
    apply emits_bind; [done | done | by apply emits_writeEntry |]. intros _.
    apply emits_bind; [done | done | by apply own_samlAddOrMark | intros; by apply IH].
Qed.

Lemma own_RemoveUsers_loop names :
  Forall (λ k, emits Q (RemoveUser m input k)) names →
  emits Q (RemoveUsers_loop m names input).
Proof using Q_nil Q_app.
  induction names as [|k rest IH]; intros HP; simpl; [by apply emits_ret|].
  apply Forall_cons in HP as [Hk HP].
  apply emits_bind; [done | done | done | intros; by apply IH].
Qed.
End OwnCalls.

Lemma AddUser_addCalls m input userName :
  emits (λ new, new = [] ∨ new = take 1 (addCallsOf input userName)
                ∨ new = addCallsOf input userName)
    (AddUser m input userName).
Proof.
  intros s. unfold AddUser. rewrite AssociateRole_run. unfold addCallsOf, targetGUID.
  destruct (Peek m); [exists []; rewrite app_nil_r; auto|]. simpl.
  destruct (Remote m (calls s) _) as [[]|e]; simpl; eexists; split; eauto.
Qed.

Lemma RemoveUser_removeCall m input userName :
  emits (λ new, new = [] ∨ new = [removeCallOf input userName])
    (RemoveUser m input userName).
Proof.
  intros s. unfold RemoveUser, RemoveRole, removeCallOf, targetGUID.
  destruct (Peek m); [exists []; rewrite app_nil_r; auto|].
  exists [ClientRemoveByUsername (Binding input)
            (if isSpaceRole (Binding input) then SpaceGUID input else OrgGUID input)
            userName]. auto.
Qed.

Lemma emits_weaken (Q1 Q2 : list call → Prop) {A} (m : M A) :
  (∀ new, Q1 new → Q2 new) → emits Q1 m → emits Q2 m.
Proof. intros H Hm s. destruct (Hm s) as (new & E & HQ). eauto. Qed.

(** X3: the internal-user step issues nothing but adds of configured
    internal users, and the federated-user step nothing but provisionings and
    adds of configured federated users; the user name is passed as it is
    spelled in the configuration, the org association goes to the binding's
    org and the role association to the binding's role and target. *)
Theorem sync_steps_call_only_for_configured (m : DefaultManager)
    (roleUsers : gmap string string) (uaaUsers : loc) (input : UpdateUsersInput)
    (s : state) :
  Forall (λ c, ∃ u, u ∈ Users input ∧ c ∈ addCallsOf input u)
    (issued (SyncInternalUsers m roleUsers uaaUsers input) s) ∧
  Forall (λ c, ∃ u, u ∈ SamlUsers input ∧ (c = createCallOf m u ∨ c ∈ addCallsOf input u))
    (issued (SyncSamlUsers m roleUsers uaaUsers input) s).
Proof.
  split.
  - destruct (own_SyncInternalUsers_loop
                (Forall (λ c, ∃ u, u ∈ Users input ∧ c ∈ addCallsOf input u))
                (Forall_nil_2 _) (λ a b Ha Hb, proj2 (Forall_app _ a b) (conj Ha Hb))
                m input (λ u, u ∈ Users input)) with (users := Users input)
        (roleUsers := roleUsers) (uaaUsers := uaaUsers) (s := s) as (new & E & H).
    + intros u Hu. eapply emits_weaken; [|apply AddUser_addCalls].
      intros new [-> | [-> | ->]]; [constructor | |];
        repeat constructor; exists u; (split; [done|]); set_solver.
    + by apply Forall_forall.
    + by rewrite (issued_app (SyncInternalUsers m roleUsers uaaUsers input) s new E).
  - destruct (own_SyncSamlUsers_loop
                (Forall (λ c, ∃ u, u ∈ SamlUsers input
                               ∧ (c = createCallOf m u ∨ c ∈ addCallsOf input u)))
                (Forall_nil_2 _) (λ a b Ha Hb, proj2 (Forall_app _ a b) (conj Ha Hb))
                m input (λ u, u ∈ SamlUsers input)) with (users := SamlUsers input)
        (roleUsers := roleUsers) (uaaUsers := uaaUsers) (s := s) as (new & E & H).
    + intros u Hu. eapply emits_weaken; [|apply AddUser_addCalls].
      intros new [-> | [-> | ->]]; [constructor | |];
        repeat constructor; exists u; (split; [done|]); right; set_solver.
    + intros u Hu. repeat constructor. exists u. auto.
    + by apply Forall_forall.
    + by rewrite (issued_app (SyncSamlUsers m roleUsers uaaUsers input) s new E).
Qed.

(** ** What is removed *)

Lemma samlAddOrMark_sub m u (roleUsers roleUsers' : gmap string string) input s s' :
  samlAddOrMark m u roleUsers input s = (Ok roleUsers', s') →
  ∀ k, is_Some (roleUsers' !! k) → is_Some (roleUsers !! k).
Proof.
  unfold samlAddOrMark. destruct (roleUsers !! ToLower u).
  - intros [= <- _] k. rewrite lookup_delete_is_Some. tauto.
  - rewrite run_bind. destruct (AddUser m input u s) as [[[]|e] s1]; [|done].
    by intros [= <- _].
Qed.

Lemma SyncSamlUsers_loop_sub m users (roleUsers : gmap string string)
    uaaUsers input s roleUsers' s' :
  SyncSamlUsers_loop m users roleUsers uaaUsers input s = (Ok roleUsers', s') →
  ∀ k, is_Some (roleUsers' !! k) → is_Some (roleUsers !! k).
Proof.
  revert roleUsers s. induction users as [|u rest IH]; intros roleUsers s Hrun;
    simpl in Hrun.
  { by inversion Hrun. }
  assert (∀ s1, (samlAddOrMark m u roleUsers input
                   ≫= λ ru, SyncSamlUsers_loop m rest ru uaaUsers input) s1
                = (Ok roleUsers', s') →
                ∀ k, is_Some (roleUsers' !! k) → is_Some (roleUsers !! k)) as Hmark.
  { intros s1 H1. rewrite run_bind in H1.
    destruct (samlAddOrMark m u roleUsers input s1) as [[ru1|e] s2] eqn:Hm; [|done].
    intros k Hk. eapply samlAddOrMark_sub; [exact Hm|]. by eapply IH. }
  rewrite run_bind in Hrun. unfold readMap in Hrun. simpl in Hrun.
  destruct (mapAt s uaaUsers !! ToLower u); [by eapply Hmark|].
  rewrite run_bind in Hrun. unfold attempt in Hrun. rewrite run_perform in Hrun.
  destruct (Remote m (calls s) _) as [[]|e]; [|by eapply IH].
  rewrite run_bind in Hrun. unfold writeEntry in Hrun. simpl in Hrun.
  destruct (heap s !! uaaUsers); [by eapply Hmark | done].
Qed.

Lemma RemoveUsers_own m (roleUsers : gmap string string) input :
  emits (Forall (λ c, ∃ k, c = removeCallOf input k ∧ is_Some (roleUsers !! k)))
    (RemoveUsers m roleUsers input).
Proof.
  unfold RemoveUsers. destruct (RemoveUsers_flag input); [|by apply emits_ret].
  apply own_RemoveUsers_loop; [constructor | intros; by apply Forall_app |].
  apply Forall_forall. intros k Hk.
  apply list_elem_of_fmap in Hk as ([k' v] & -> & Hkv). apply elem_of_map_to_list in Hkv.
  eapply emits_weaken; [|apply RemoveUser_removeCall].
  intros new [-> | ->]; repeat constructor. exists k'. by rewrite Hkv.
Qed.

Lemma AddUser_noRemove m input userName : emits noRemove (AddUser m input userName).
Proof.
  apply emits_AssociateRole; [apply noRemove_nil | |]; by repeat constructor.
Qed.

(** X4: a reconciliation removes extraneous members only.  Each remove
    call it issues is the remove of its own binding, for a name that is a key
    of the membership it listed and that is not the case-folded name of any
    configured internal user. *)
Theorem SyncUsers_removes_only_extraneous (m : DefaultManager) (uaaUsers : loc)
    (input : UpdateUsersInput) (s s0 : state) (listed : gmap string string) :
  ListUsers m input s = (Ok listed, s0) →
  Forall (λ c, isRemove c = true →
               ∃ k, c = removeCallOf input k ∧ is_Some (listed !! k)
                    ∧ k ∉ ToLower <$> Users input)
    (issued (SyncUsers m uaaUsers input) s).
Proof.
  intros Hlist.
  set (Good := λ c, isRemove c = true →
                    ∃ k, c = removeCallOf input k ∧ is_Some (listed !! k)
                         ∧ k ∉ ToLower <$> Users input).
  assert (∀ new, noRemove new → Forall Good new) as Hquiet.
  { intros new H. eapply Forall_impl; [exact H|]. intros c Hc Hr. congruence. }
  assert (∃ new, calls (SyncUsers m uaaUsers input s).2 = calls s ++ new
                 ∧ Forall Good new) as (new & E & H);
    [|by rewrite (issued_app _ _ _ E)].
  pose proof noRemove_nil as Hnil. pose proof noRemove_app as Happ.
  assert (∀ c, isRemove c = false → noRemove [c]) as Hone by apply noRemove_one.
  destruct (emits_ListUsers noRemove Hnil Happ m input) with (s := s)
    as (n0 & E0 & Q0); [intros; by apply Hone|].
  rewrite Hlist in E0. simpl in E0.
  unfold SyncUsers. rewrite run_bind, Hlist, run_bind.
  destruct (emits_SyncLdapUsers noRemove Hnil Happ m input) with
    (roleUsers := listed) (uaaUsers := uaaUsers) (s := s0) as (n1 & E1 & Q1);
    [intros; by apply Hone | apply AddUser_noRemove |].
  destruct (SyncLdapUsers m listed uaaUsers input s0) as [[ru1|e] s1] eqn:H1;
    simpl in E1; cycle 1.
  { exists (n0 ++ n1). split; [simpl; by rewrite E1, E0, <- !app_assoc|].
    apply Hquiet. by apply Happ. }
  rewrite run_bind.
  destruct (emits_SyncInternalUsers_loop noRemove Hnil Happ m input) with
    (users := Users input) (roleUsers := ru1) (uaaUsers := uaaUsers) (s := s1)
    as (n2 & E2 & Q2); [apply AddUser_noRemove|].
  fold (SyncInternalUsers m ru1 uaaUsers input) in E2.
  destruct (SyncInternalUsers m ru1 uaaUsers input s1) as [[ru2|e] s2] eqn:H2;
    simpl in E2; cycle 1.
  { exists (n0 ++ n1 ++ n2). split; [simpl; by rewrite E2, E1, E0, <- !app_assoc|].
    apply Hquiet. auto. }
  rewrite run_bind.
  destruct (emits_SyncSamlUsers_loop noRemove Hnil Happ m input) with
    (users := SamlUsers input) (roleUsers := ru2) (uaaUsers := uaaUsers) (s := s2)
    as (n3 & E3 & Q3); [intros; by apply Hone | apply AddUser_noRemove |].
  fold (SyncSamlUsers m ru2 uaaUsers input) in E3.
  destruct (SyncSamlUsers m ru2 uaaUsers input s2) as [[ru3|e] s3] eqn:H3;
    simpl in E3; cycle 1.
  { exists (n0 ++ n1 ++ n2 ++ n3). split; [simpl; by rewrite E3, E2, E1, E0, <- !app_assoc|].
    apply Hquiet. auto. }
  destruct (RemoveUsers_own m ru3 input s3) as (n4 & E4 & Q4).
  exists (n0 ++ n1 ++ n2 ++ n3 ++ n4).
  split; [by rewrite E4, E3, E2, E1, E0, <- !app_assoc|].
  repeat (apply Forall_app; split; [by apply Hquiet|]).
  eapply Forall_impl; [exact Q4|]. intros c (k & -> & Hk) _. exists k.
  split; [done|].
  apply (SyncSamlUsers_loop_sub _ _ _ _ _ _ _ _ H3) in Hk.
  destruct (SyncInternalUsers_loop_marks _ _ _ _ _ _ _ _ H2) as [_ Hl2'].
  destruct (Hl2' ru2 eq_refl) as [_ Hl2].
  rewrite Hl2 in Hk. case_decide; [by destruct Hk as [? ?]|]. split; [|done].
  unfold SyncLdapUsers in H1. rewrite run_bind, run_perform in H1.
  destruct (Remote m (calls s0) _) as [members|e]; [|done].
  destruct (SyncInternalUsers_loop_marks _ _ _ _ _ _ _ _ H1) as [_ Hl1].
  destruct (Hl1 ru1 eq_refl) as [_ Hl1']. rewrite Hl1' in Hk.
  case_decide; [by destruct Hk as [? ?] | done].
Qed.

Lemma SyncUsers_removes_only_extraneous_witness :
  Forall (λ c, isRemove c = true →
               ∃ k, c = removeCallOf (devBinding ["bob"] [] true) k
                    ∧ is_Some (userListToMap [cfUser "alice"; cfUser "carol"] !! k)
                    ∧ k ∉ ToLower <$> Users (devBinding ["bob"] [] true))
    (issued (SyncUsers (tableManager scenario false) 0 (devBinding ["bob"] [] true))
       (loaded scenario)).
Proof.
  apply (SyncUsers_removes_only_extraneous (tableManager scenario false) 0
           (devBinding ["bob"] [] true) (loaded scenario)
           {| calls := [UAAMgrListUsers; ClientList SpaceDeveloper "dev-guid"];
              heap := [T_uaaUsers scenario] |}).
  reflexivity.
Defined.

(** ** The calls of a whole reconciliation and of the drivers *)

Section OwnSyncUsers.
Variable Q : list call → Prop.
Hypothesis Q_nil : Q [].
Hypothesis Q_app : ∀ a b, Q a → Q b → Q (a ++ b).
Variables (m : DefaultManager) (input : UpdateUsersInput).
Hypothesis Q_list : Q [ClientList (Binding input) (targetGUID input)].
Hypothesis Q_resolve : Q [LdapResolveMembers (LdapGroupNames input)].
Hypothesis Q_create : ∀ u, Q [createCallOf m u].
Hypothesis Q_add : ∀ u, emits Q (AddUser m input u).
Hypothesis Q_remove : ∀ k, emits Q (RemoveUser m input k).

Lemma own_SyncUsers uaaUsers : emits Q (SyncUsers m uaaUsers input).
Proof using All.
  assert (∀ users : list string, Forall (λ _, True) users) as Hall.
  { intros users. by apply Forall_forall. }
  unfold SyncUsers.
  apply emits_bind; [done | done | by apply emits_ListRole |]. intros ru0.
  apply emits_bind; [done | done | |].
  { unfold SyncLdapUsers. apply emits_bind; [done | done | |].
    - by apply (emits_perform _ _ (LdapResolveMembers _)).
    - intros members.
      by apply (own_SyncInternalUsers_loop Q Q_nil Q_app m input (λ _, True)). }
  intros ru1. apply emits_bind; [done | done | |].
  { by apply (own_SyncInternalUsers_loop Q Q_nil Q_app m input (λ _, True)). }
  intros ru2. apply emits_bind; [done | done | |].
  { by apply (own_SyncSamlUsers_loop Q Q_nil Q_app m input (λ _, True)). }
  intros ru3. unfold RemoveUsers. destruct (RemoveUsers_flag input);
    [|by apply emits_ret].
  apply own_RemoveUsers_loop; [done | done |]. by apply Forall_forall.
Qed.
End OwnSyncUsers.

Lemma emits_FindSpace Q sm orgName spaceName :
  Q [] → (∀ a b, Q a → Q b → Q (a ++ b)) →
  Q [OrgMgrGetOrgGUID orgName] → (∀ g, Q [ClientListSpacesByQuery g]) →
  emits Q (space.FindSpace sm orgName spaceName).
Proof.
  intros Hnil Happ Horg Hlist. unfold space.FindSpace, space.ListSpaces.
  apply emits_bind; [done | done | by apply (emits_perform _ _ (OrgMgrGetOrgGUID _)) |].
  intros orgGUID. apply emits_bind; [done | done | |].
  { by apply (emits_perform _ _ (ClientListSpacesByQuery _)). }
  intros spaces. destruct (space.firstNamed _ _); [by apply emits_ret|].
  destruct (space.Peek sm); [by apply emits_ret | by apply emits_fail].
Qed.

Section Drivers.
Variable Q : list call → Prop.
Hypothesis Q_nil : Q [].
Hypothesis Q_app : ∀ a b, Q a → Q b → Q (a ++ b).
Variable m : DefaultManager.
Hypothesis Q_other :
  ∀ c, callRole c = None → isAdd c = false → isRemove c = false → Q [c].
Hypothesis Q_space :
  ∀ uaaUsers input, isSpaceRole (Binding input) = true →
                    emits Q (SyncUsers m uaaUsers input).
Hypothesis Q_org :
  ∀ uaaUsers input, isSpaceRole (Binding input) = false →
                    emits Q (SyncUsers m uaaUsers input).

Lemma emits_UpdateSpaceUsers : emits Q (UpdateSpaceUsers m).
Proof using Q_nil Q_app Q_other Q_space.
  unfold UpdateSpaceUsers, UAAMgr_ListUsers.
  apply emits_bind; [done | done | |].
  { apply emits_bind; [done | done | |].
    - by apply (emits_perform _ _ UAAMgrListUsers), Q_other.
    - intros users. by apply emits_newMap. }
  intros uaaUsers. apply emits_bind; [done | done | |].
  { by apply (emits_perform _ _ CfgGetSpaceConfigs), Q_other. }
  intros spaceConfigs. induction spaceConfigs as [|input rest IH]; simpl.
  { by apply emits_ret. }
  apply emits_bind; [done | done | | done]. unfold updateSpaceUsers.
  apply emits_bind; [done | done | |].
  { apply emits_wrap, emits_FindSpace; [done | done | |]; intros; by apply Q_other. }
  intros space.
  repeat (apply emits_bind; [done | done | by apply emits_wrap, Q_space | intros _]).
  by apply emits_wrap, Q_space.
Qed.

Lemma emits_UpdateOrgUsers : emits Q (UpdateOrgUsers m).
Proof using Q_nil Q_app Q_other Q_org.
  unfold UpdateOrgUsers, UAAMgr_ListUsers.
  apply emits_bind; [done | done | |].
  { apply emits_bind; [done | done | |].
    - by apply (emits_perform _ _ UAAMgrListUsers), Q_other.
    - intros users. by apply emits_newMap. }
  intros uaaUsers. apply emits_bind; [done | done | |].
  { by apply (emits_perform _ _ CfgGetOrgConfigs), Q_other. }
  intros orgConfigs. induction orgConfigs as [|input rest IH]; simpl.
  { by apply emits_ret. }
  apply emits_bind; [done | done | | done]. unfold updateOrgUsers.
  apply emits_bind; [done | done | |].
  { by apply (emits_perform _ _ (OrgMgrFindOrg _)), Q_other. }
  intros org.
  repeat (apply emits_bind; [done | done | by apply emits_wrap, Q_org | intros _]).
  by apply emits_wrap, Q_org.
Qed.
End Drivers.

Lemma AddUser_peek m input userName s :
  Peek m = true → AddUser m input userName s = (Ok tt, s).
Proof. intros H. unfold AddUser. by rewrite AssociateRole_run, H. Qed.

Lemma RemoveUser_peek m input userName s :
  Peek m = true → RemoveUser m input userName s = (Ok tt, s).
Proof. intros H. unfold RemoveUser, RemoveRole. by rewrite H. Qed.

Lemma cleanupOrgUsers_loop_peek m input org orgUsers usersInRoles s :
  Peek m = true →
  cleanupOrgUsers_loop m input org orgUsers usersInRoles s = (Ok tt, s).
Proof.
  intros H. induction orgUsers as [|u rest IH]; simpl; [done|].
  rewrite H. by destruct (usersInRoles !! _).
Qed.

Lemma noClientMutation_one c :
  isAdd c = false → isRemove c = false → noClientMutation [c].
Proof. intros. by repeat constructor. Qed.

Lemma SyncUsers_peek m uaaUsers input :
  Peek m = true → emits noClientMutation (SyncUsers m uaaUsers input).
Proof.
  intros Hpeek.
  apply own_SyncUsers; try (by repeat constructor).
  - intros. by apply Forall_app.
  - intros u s. exists []. rewrite AddUser_peek by done. rewrite app_nil_r.
    split; [done | constructor].
  - intros k s. exists []. rewrite RemoveUser_peek by done. rewrite app_nil_r.
    split; [done | constructor].
Qed.

Lemma CleanupOrgUsers_peek m :
  Peek m = true → emits noClientMutation (CleanupOrgUsers m).
Proof.
  intros Hpeek.
  assert (noClientMutation []) as Hnil by constructor.
  assert (∀ a b, noClientMutation a → noClientMutation b → noClientMutation (a ++ b))
    as Happ by (intros; by apply Forall_app).
  unfold CleanupOrgUsers. apply emits_bind; [done | done | |].
  { by apply (emits_perform _ _ CfgGetOrgConfigs), noClientMutation_one. }
  intros orgConfigs. induction orgConfigs as [|input rest IH]; simpl.
  { by apply emits_ret. }
  apply emits_bind; [done | done | | done]. unfold cleanupOrgUsers.
  apply emits_bind; [done | done | |].
  { by apply (emits_perform _ _ (OrgMgrFindOrg _)), noClientMutation_one. }
  intros org. apply emits_bind; [done | done | |].
  { by apply emits_wrap, (emits_perform _ _ (ClientListOrgUsers _)), noClientMutation_one. }
  intros orgUsers. apply emits_bind; [done | done | |].
  { apply emits_wrap, emits_usersInOrgRoles; [done | done | |];
      intros; by apply noClientMutation_one. }
  intros usersInRoles s. exists []. rewrite cleanupOrgUsers_loop_peek by done.
  rewrite app_nil_r. split; [done | constructor].
Qed.

(** X5: under dry-run the user manager changes nothing through the CF
    client: neither the space driver, nor the org driver, nor the cleanup
    issues an association or a removal, of a role or of an org member,
    whatever the collaborators answer. *)
Theorem dry_run_never_mutates (m : DefaultManager) (s : state) :
  Peek m = true →
  noClientMutation (issued (UpdateSpaceUsers m) s) ∧
  noClientMutation (issued (UpdateOrgUsers m) s) ∧
  noClientMutation (issued (CleanupOrgUsers m) s).
Proof.
  intros Hpeek.
  assert (noClientMutation []) as Hnil by constructor.
  assert (∀ a b, noClientMutation a → noClientMutation b → noClientMutation (a ++ b))
    as Happ by (intros; by apply Forall_app).
  assert (∀ c, callRole c = None → isAdd c = false → isRemove c = false →
               noClientMutation [c]) as Hother
    by (intros; by apply noClientMutation_one).
  split; [|split].
  - destruct (emits_UpdateSpaceUsers noClientMutation Hnil Happ m Hother) with (s := s)
      as (new & E & H); [intros; by apply SyncUsers_peek|].
    by rewrite (issued_app _ _ _ E).
  - destruct (emits_UpdateOrgUsers noClientMutation Hnil Happ m Hother) with (s := s)
      as (new & E & H); [intros; by apply SyncUsers_peek|].
    by rewrite (issued_app _ _ _ E).
  - destruct (CleanupOrgUsers_peek m Hpeek s) as (new & E & H).
    by rewrite (issued_app _ _ _ E).
Qed.

Lemma dry_run_never_mutates_witness :
  noClientMutation (issued (UpdateSpaceUsers (tableManager zoeSpace true)) initial) ∧
  noClientMutation (issued (UpdateOrgUsers (tableManager zoeSpace true)) initial) ∧
  noClientMutation (issued (CleanupOrgUsers (tableManager zoeSpace true)) initial).
Proof. apply (dry_run_never_mutates (tableManager zoeSpace true) initial). reflexivity. Defined.

Lemma SyncUsers_own_roles m uaaUsers input :
  emits (Forall (λ c, ∀ r, callRole c = Some r → r = Binding input))
    (SyncUsers m uaaUsers input).
Proof.
  apply own_SyncUsers.
  - constructor.
  - intros. by apply Forall_app.
  - repeat constructor. by intros r [= <-].
  - by repeat constructor.
  - by repeat constructor.
  - intros u. eapply emits_weaken; [|apply AddUser_addCalls].
    intros new [-> | [-> | ->]]; repeat constructor; try done. by intros r [= <-].
  - intros k. eapply emits_weaken; [|apply RemoveUser_removeCall].
    intros new [-> | ->]; repeat constructor. by intros r [= <-].
Qed.

(** X6: the space driver lists, adds and removes space roles only, and the
    org driver org roles only. *)
Theorem drivers_keep_to_their_roles (m : DefaultManager) (s : state) :
  spaceRolesOnly (issued (UpdateSpaceUsers m) s) ∧
  orgRolesOnly (issued (UpdateOrgUsers m) s).
Proof.
  split.
  - destruct (emits_UpdateSpaceUsers spaceRolesOnly) with (m := m) (s := s)
      as (new & E & H).
    + constructor.
    + intros. by apply Forall_app.
    + intros c Hc _ _. repeat constructor. intros r. congruence.
    + intros uaaUsers input Hr. eapply emits_weaken; [|apply SyncUsers_own_roles].
      intros new H. eapply Forall_impl; [exact H|]. intros c Hc r Hcr.
      by rewrite (Hc r Hcr).
    + by rewrite (issued_app _ _ _ E).
  - destruct (emits_UpdateOrgUsers orgRolesOnly) with (m := m) (s := s)
      as (new & E & H).
    + constructor.
    + intros. by apply Forall_app.
    + intros c Hc _ _. repeat constructor. intros r. congruence.
    + intros uaaUsers input Hr. eapply emits_weaken; [|apply SyncUsers_own_roles].
      intros new H. eapply Forall_impl; [exact H|]. intros c Hc r Hcr.
      by rewrite (Hc r Hcr).
    + by rewrite (issued_app _ _ _ E).
Qed.

(** ** The removals, call by call *)

Lemma RemoveUsers_loop_run m names input s s' :
  Peek m = false →
  RemoveUsers_loop m names input s = (Ok tt, s') →
  calls s' = calls s ++ (removeCallOf input <$> names).
Proof.
  intros Hpeek. revert s. induction names as [|k rest IH]; intros s Hrun;
    simpl in Hrun.
  { inversion Hrun. by rewrite app_nil_r. }
  rewrite run_bind in Hrun. unfold RemoveUser, RemoveRole in Hrun.
  rewrite Hpeek, run_perform in Hrun.
  destruct (Remote m (calls s) _) as [[]|e]; [|done].
  rewrite (IH _ Hrun). simpl. by rewrite <- app_assoc.
Qed.

(** X7: outside dry-run and with [RemoveUsers] set, a [RemoveUsers] that
    returns without error has issued exactly one remove call for every key
    left in the role-user map, and no other call.  The name it passes is the
    key, that is the case-folded user name. *)
Theorem RemoveUsers_one_call_per_member (m : DefaultManager)
    (roleUsers : gmap string string) (input : UpdateUsersInput) (s s' : state) :
  Peek m = false →
  RemoveUsers_flag input = true →
  RemoveUsers m roleUsers input s = (Ok tt, s') →
  NoDup (issued (RemoveUsers m roleUsers input) s) ∧
  ∀ c, c ∈ issued (RemoveUsers m roleUsers input) s
       ↔ ∃ k, is_Some (roleUsers !! k) ∧ c = removeCallOf input k.
Proof.
  intros Hpeek Hflag Hrun.
  rewrite (issued_run _ _ _ _ (removeCallOf input <$> (map_to_list roleUsers).*1) Hrun).
  - split.
    + apply NoDup_fmap_2; [|apply NoDup_fst_map_to_list].
      intros k1 k2. unfold removeCallOf. congruence.
    + intros c. rewrite list_elem_of_fmap. split.
      * intros (k & -> & Hk). exists k. split; [|done].
        apply list_elem_of_fmap in Hk as ([k' v] & -> & Hkv).
        apply elem_of_map_to_list in Hkv. simpl. by rewrite Hkv.
      * intros (k & [v Hk] & ->). exists k. split; [done|].
        apply list_elem_of_fmap. exists (k, v). split; [done|].
        by apply elem_of_map_to_list.
  - unfold RemoveUsers in Hrun. rewrite Hflag in Hrun.
    by apply (RemoveUsers_loop_run m).
Qed.

Lemma RemoveUsers_one_call_per_member_witness :
  NoDup (issued (RemoveUsers (tableManager scenario false)
                   {["carol" := "carol-guid"; "dan" := "dan-guid"]}
                   (devBinding [] [] true)) (loaded scenario)) ∧
  ∀ c, c ∈ issued (RemoveUsers (tableManager scenario false)
                     {["carol" := "carol-guid"; "dan" := "dan-guid"]}
                     (devBinding [] [] true)) (loaded scenario)
       ↔ ∃ k, is_Some (({["carol" := "carol-guid"; "dan" := "dan-guid"]}
                          : gmap string string) !! k)
              ∧ c = removeCallOf (devBinding [] [] true) k.
Proof.
  apply (RemoveUsers_one_call_per_member (tableManager scenario false)
           {["carol" := "carol-guid"; "dan" := "dan-guid"]} (devBinding [] [] true)
           (loaded scenario)
           (RemoveUsers (tableManager scenario false)
              {["carol" := "carol-guid"; "dan" := "dan-guid"]}
              (devBinding [] [] true) (loaded scenario)).2);
    reflexivity.
Defined.



(** ** [FindSpace] *)

Lemma firstNamed_Some spaces spaceName sp :
  space.firstNamed spaces spaceName = Some sp →
  ∃ pre post,
    spaces = pre ++ sp :: post ∧ Space_Name sp = spaceName ∧
    ∀ x, x ∈ pre → Space_Name x ≠ spaceName.
Proof.
  induction spaces as [|x rest IH]; simpl; [done|].
  case_bool_decide as Hx.
  - intros [= ->]. exists [], rest. split; [done|]. split; [done|].
    intros y Hy. inversion Hy.
  - intros H. destruct (IH H) as (pre & post & -> & Hn & Hpre).
    exists (x :: pre), post. split; [done|]. split; [done|].
    intros y [-> | Hy]%elem_of_cons; auto.
Qed.

Lemma firstNamed_None_inv spaces spaceName :
  space.firstNamed spaces spaceName = None →
  ∀ x, x ∈ spaces → Space_Name x ≠ spaceName.
Proof.
  induction spaces as [|y rest IH]; simpl; intros Hfirst x Hx; [inversion Hx|].
  case_bool_decide; [done|].
  apply elem_of_cons in Hx as [-> | Hx]; [done | by apply IH].
Qed.

(** X9: a [FindSpace] that returns a space has asked for the org's GUID
    and then for the spaces of that GUID, and made no other call.  The space
    returned has the name asked for: it is the first of the listed spaces with
    exactly that name, or, when there is none and only under dry-run, the
    placeholder.  A failure of either call is returned as it is, and after a
    failed GUID lookup the spaces are not listed. *)
Theorem FindSpace_result (sm : space.DefaultManager) (orgName spaceName : string)
    (s : state) :
  match space.FindSpace sm orgName spaceName s with
  | (Ok sp, s') =>
      ∃ orgGUID spaces,
        space.Remote sm (calls s) (OrgMgrGetOrgGUID orgName) = Ok orgGUID ∧
        space.Remote sm (calls s ++ [OrgMgrGetOrgGUID orgName])
          (ClientListSpacesByQuery orgGUID) = Ok spaces ∧
        s' = {| calls := calls s ++ [OrgMgrGetOrgGUID orgName;
                                     ClientListSpacesByQuery orgGUID];
                heap := heap s |} ∧
        Space_Name sp = spaceName ∧
        ((∃ pre post, spaces = pre ++ sp :: post
                      ∧ ∀ x, x ∈ pre → Space_Name x ≠ spaceName) ∨
         (space.Peek sm = true ∧ sp = placeholder orgName spaceName
          ∧ ∀ x, x ∈ spaces → Space_Name x ≠ spaceName))
  | (Err e, s') =>
      (space.Remote sm (calls s) (OrgMgrGetOrgGUID orgName) = Err e ∧
       s' = {| calls := calls s ++ [OrgMgrGetOrgGUID orgName]; heap := heap s |}) ∨
      ∃ orgGUID,
        space.Remote sm (calls s) (OrgMgrGetOrgGUID orgName) = Ok orgGUID ∧
        s' = {| calls := calls s ++ [OrgMgrGetOrgGUID orgName;
                                     ClientListSpacesByQuery orgGUID];
                heap := heap s |} ∧
        (space.Remote sm (calls s ++ [OrgMgrGetOrgGUID orgName])
           (ClientListSpacesByQuery orgGUID) = Err e ∨
         (space.Peek sm = false ∧
          e = Errorf ("space [" +:+ spaceName +:+ "] not found in org ["
                      +:+ orgName +:+ "]")))
  end.
Proof.
  unfold space.FindSpace, space.ListSpaces. rewrite run_bind, run_perform.
  destruct (space.Remote sm (calls s) _) as [orgGUID|e] eqn:Horg; [|by left].
  rewrite run_bind, run_perform. simpl.
  destruct (space.Remote sm (calls s ++ _) _) as [spaces|e] eqn:Hspaces.
  - destruct (space.firstNamed spaces spaceName) as [sp|] eqn:Hfirst.
    + destruct (firstNamed_Some _ _ _ Hfirst) as (pre & post & -> & Hn & Hpre).
      simpl. exists orgGUID, (pre ++ sp :: post). rewrite <- app_assoc.
      repeat (split; [done|]). left. eauto.
    + pose proof (firstNamed_None_inv _ _ Hfirst) as Hnone.
      destruct (space.Peek sm) eqn:Hpeek; simpl.
      * exists orgGUID, spaces. rewrite <- app_assoc.
        repeat (split; [done|]). right. done.
      * right. exists orgGUID. rewrite <- app_assoc. split; [done|].
        split; [done|]. by right.
  - right. exists orgGUID. simpl. rewrite <- app_assoc. split; [done|].
    split; [done|]. by left.
Qed.

(* ------------------------------------------------------------------ *)
(** ** Package [main] *)



Lemma getConfigDir_cases (c : main.Context) :
  (c "config-dir" = "" ∧ main.getConfigDir c = "config") ∨
  (c "config-dir" ≠ "" ∧ main.getConfigDir c = c "config-dir").
Proof.
  unfold main.getConfigDir.
  change (main.getFlag main.configDir) with "config-dir".
  case_bool_decide as H; [left | right]; by rewrite ?H.
Qed.

Lemma getConfigDir_nonempty (c : main.Context) : main.getConfigDir c ≠ "".
Proof. by destruct (getConfigDir_cases c) as [[_ ->] | [H ->]]. Qed.

(** X11: [getConfigDir] is the value of the config-dir flag, or "config"
    when the flag is empty; it is never the empty string. *)
Theorem getConfigDir_default (c : main.Context) :
  main.getConfigDir c ≠ "" ∧
  (c "config-dir" ≠ "" → main.getConfigDir c = c "config-dir") ∧
  (c "config-dir" = "" → main.getConfigDir c = "config").
Proof.
  split; [apply getConfigDir_nonempty|].
  destruct (getConfigDir_cases c) as [[H ->] | [H ->]]; by split.
Qed.

Lemma getConfigDir_default_witness :
  main.getConfigDir demoContext ≠ "" ∧ main.getConfigDir demoContext = "config".
Proof.
  destruct (getConfigDir_default demoContext) as (H1 & _ & H3).
  split; [exact H1 | by apply H3].
Defined.

Lemma trun_bind {C A B} (m : TM C A) (f : A → TM C B) h :
  (m ≫= f) h =
  match m h with
  | (Ok a, h') => f a h'
  | (Err e, h') => (Err e, h')
  end.
Proof. reflexivity. Qed.

(** X12: [InitializeManager] makes no call when one of system-domain,
    user-id, password and client-secret is empty, and returns the error that
    says so; the error about the config directory cannot occur, the
    directory defaulting to "config".  With the four flags set it asks for
    the CF token first and for the UAAC token only when it got the first; a
    failure of either is returned as it is.  The manager it returns carries
    the two tokens and the config directory; its [systemDomain] field is the
    name of the environment variable, "SYSTEM_DOMAIN", not the domain given. *)
Theorem InitializeManager_checks_then_tokens (w : main.World) (c : main.Context)
    (h : list main.call) :
  (c "system-domain" = "" ∨ c "user-id" = "" ∨ c "password" = ""
   ∨ c "client-secret" = "" →
   main.InitializeManager w c h
   = (Err (Errorf "Must set system-domain, user-id, password, client-secret properties"),
      h)) ∧
  (c "system-domain" ≠ "" → c "user-id" ≠ "" → c "password" ≠ "" →
   c "client-secret" ≠ "" →
   main.InitializeManager w c h
   = let getCF := main.GetCFToken (c "system-domain") (c "user-id") (c "password") in
     let getUAAC :=
       main.GetUAACToken (c "system-domain") (c "user-id") (c "client-secret") in
     match w h getCF with
     | Err e => (Err e, h ++ [getCF])
     | Ok cfToken =>
         match w (h ++ [getCF]) getUAAC with
         | Err e => (Err e, h ++ [getCF; getUAAC])
         | Ok uaacToken =>
             (Ok {| main.UAAManager := (c "system-domain", c "user-id");
                    main.OrgManager := (c "system-domain", cfToken, uaacToken);
                    main.SpaceManager := (c "system-domain", cfToken, uaacToken);
                    main.ConfigManager := main.getConfigDir c;
                    main.ConfigDir := main.getConfigDir c;
                    main.LdapBindPwd := c "ldap-password";
                    main.uaacToken := uaacToken;
                    main.CFMgmt_systemDomain := "SYSTEM_DOMAIN";
                    main.UAACManager := ("SYSTEM_DOMAIN", uaacToken) |},
              h ++ [getCF; getUAAC])
         end
     end).
Proof.
  unfold main.InitializeManager.
  rewrite (bool_decide_eq_false_2 _ (getConfigDir_nonempty c)).
  change (main.getFlag main.systemDomain) with "system-domain".
  change (main.getFlag main.userID) with "user-id".
  change (main.getFlag main.password) with "password".
  change (main.getFlag main.clientSecret) with "client-secret".
  change (main.getFlag main.ldapPassword) with "ldap-password".
  split.
  - intros Hempty.
    assert (bool_decide (c "system-domain" = "") || bool_decide (c "user-id" = "")
            || bool_decide (c "password" = "") || bool_decide (c "client-secret" = "")
            = true) as ->; [|done].
    destruct Hempty as [H | [H | [H | H]]]; rewrite H; simpl;
      by rewrite ?orb_true_r.
  - intros H1 H2 H3 H4. rewrite !bool_decide_eq_false_2 by done. simpl.
    rewrite trun_bind. unfold tperform at 1.
    destruct (w h _) as [cfToken|e]; [|done].
    rewrite trun_bind. unfold tperform at 1.
    destruct (w (h ++ _) _) as [uaacToken|e]; [|by rewrite <- app_assoc].
    by rewrite <- app_assoc.
Qed.

Lemma InitializeManager_checks_then_tokens_witness :
  main.InitializeManager demoTokens (λ _, "") []
  = (Err (Errorf "Must set system-domain, user-id, password, client-secret properties"),
     []) ∧
  main.InitializeManager demoTokens demoContext []
  = (Ok {| main.UAAManager := ("sys.example.com", "admin");
           main.OrgManager := ("sys.example.com", "cf-token", "uaac-token");
           main.SpaceManager := ("sys.example.com", "cf-token", "uaac-token");
           main.ConfigManager := "config";
           main.ConfigDir := "config";
           main.LdapBindPwd := "";
           main.uaacToken := "uaac-token";
           main.CFMgmt_systemDomain := "SYSTEM_DOMAIN";
           main.UAACManager := ("SYSTEM_DOMAIN", "uaac-token") |},
     [main.GetCFToken "sys.example.com" "admin" "pw";
      main.GetUAACToken "sys.example.com" "admin" "secret"]).
Proof.
  split.
  - apply (InitializeManager_checks_then_tokens demoTokens (λ _, "") []). by left.
  - destruct (InitializeManager_checks_then_tokens demoTokens demoContext []) as [_ H].
    rewrite H; [reflexivity | done..].
Defined.

(* ------------------------------------------------------------------ *)
(** ** Package [space], continued *)

Lemma tissued_app {C A} (m : TM C A) h new : (m h).2 = h ++ new → tissued m h = new.
Proof. intros E. unfold tissued. rewrite E. apply drop_app_length. Qed.

Section TEmits.
Context {C : Type}.
Variable Q : list C → Prop.
Hypothesis Q_nil : Q [].
Hypothesis Q_app : ∀ a b, Q a → Q b → Q (a ++ b).

Lemma temits_ret {A} (a : A) : temits Q (mret a).
Proof using Q_nil. intros h. exists []. by rewrite app_nil_r. Qed.

Lemma temits_fail {A} e : temits Q (@tfail C A e).
Proof using Q_nil. intros h. exists []. by rewrite app_nil_r. Qed.

Lemma temits_bind {A B} (m : TM C A) (f : A → TM C B) :
  temits Q m → (∀ a, temits Q (f a)) → temits Q (m ≫= f).
Proof using Q_nil Q_app.
  intros Hm Hf h. rewrite trun_bind. destruct (Hm h) as (n1 & E1 & Q1).
  destruct (m h) as [[a|e] h1]; simpl in *; [|by exists n1].
  destruct (Hf a h1) as (n2 & E2 & Q2). exists (n1 ++ n2).
  rewrite E2, E1, app_assoc. auto.
Qed.

Lemma temits_attempt {A} (m : TM C A) : temits Q m → temits Q (tattempt m).
Proof.
  intros Hm h. destruct (Hm h) as (n & E & HQ). exists n. split; [|done].
  unfold tattempt. by destruct (m h).
Qed.

Lemma temits_perform {R : C → Type} (w : ∀ h c, result (R c)) c :
  Q [c] → temits Q (tperform w c).
Proof. intros Hc h. by exists [c]. Qed.
End TEmits.




Section SpaceDryRun.
Variable m : spacemgmt.DefaultManager.
Hypothesis Hpeek : spacemgmt.Peek m = true.

Local Abbreviation quiet := (temits spacemgmt.noMutation).

Lemma noMutation_nil : spacemgmt.noMutation [].
Proof. constructor. Qed.

Lemma noMutation_app a b :
  spacemgmt.noMutation a → spacemgmt.noMutation b → spacemgmt.noMutation (a ++ b).
Proof. intros. by apply Forall_app. Qed.

Lemma bind_quiet {A B} (k : TM spacemgmt.call A) (f : A → TM spacemgmt.call B) :
  quiet k → (∀ a, quiet (f a)) → quiet (k ≫= f).
Proof. apply temits_bind; [apply noMutation_nil | apply noMutation_app]. Qed.

Lemma perform_quiet c :
  spacemgmt.isMutation c = false → quiet (tperform (spacemgmt.Remote m) c).
Proof. intros H. apply temits_perform. by repeat constructor. Qed.

Lemma ret_quiet {A} (a : A) : quiet (mret a).
Proof. apply temits_ret, noMutation_nil. Qed.

Lemma FindSpace_quiet orgName spaceName : quiet (spacemgmt.FindSpace m orgName spaceName).
Proof using Hpeek.
  unfold spacemgmt.FindSpace, spacemgmt.ListSpaces.
  apply bind_quiet; [by apply (perform_quiet (spacemgmt.OrgMgrGetOrgGUID _))|].
  intros g. apply bind_quiet; [by apply (perform_quiet (spacemgmt.ClientListSpacesByQuery _))|].
  intros spaces. destruct (space.firstNamed _ _); [apply ret_quiet|].
  rewrite Hpeek. apply ret_quiet.
Qed.

Lemma UpdateSpaces_quiet : quiet (spacemgmt.UpdateSpaces m).
Proof using Hpeek.
  unfold spacemgmt.UpdateSpaces.
  apply bind_quiet; [by apply (perform_quiet spacemgmt.CfgGetSpaceConfigs)|].
  intros cfgs. induction cfgs as [|input rest IH]; simpl; [apply ret_quiet|].
  apply bind_quiet; [apply temits_attempt, FindSpace_quiet|].
  intros [sp|e]; [|done]. apply bind_quiet; [|done].
  unfold spacemgmt.UpdateSpaceSSH. rewrite Hpeek. case_bool_decide; apply ret_quiet.
Qed.

Lemma CreateSpaces_names_quiet input orgGUID spaces names :
  quiet (spacemgmt.CreateSpaces_names m input orgGUID spaces names).
Proof using Hpeek.
  induction names as [|n names IHn]; simpl; [apply ret_quiet|].
  destruct (spacemgmt.doesSpaceExist spaces n); [done|].
  apply bind_quiet; [|done]. unfold spacemgmt.CreateSpace. rewrite Hpeek. apply ret_quiet.
Qed.

Lemma DeleteSpaces_each_quiet spaces orgName :
  quiet (spacemgmt.DeleteSpaces_each m spaces orgName).
Proof using Hpeek.
  induction spaces as [|sp sps IHs]; simpl; [apply ret_quiet|].
  apply bind_quiet; [|done]. unfold spacemgmt.DeleteSpace. rewrite Hpeek. apply ret_quiet.
Qed.

Lemma CreateSpaces_quiet : quiet (spacemgmt.CreateSpaces m).
Proof using Hpeek.
  unfold spacemgmt.CreateSpaces.
  apply bind_quiet; [by apply (perform_quiet spacemgmt.CfgSpaces)|].
  intros cfgs. induction cfgs as [|input rest IH]; simpl; [apply ret_quiet|].
  case_bool_decide; [done|].
  apply bind_quiet; [by apply (perform_quiet (spacemgmt.OrgMgrGetOrgGUID _))|].
  intros g. apply bind_quiet.
  { apply temits_attempt. by apply (perform_quiet (spacemgmt.ClientListSpacesByQuery _)). }
  intros [spaces|e]; [|done]. apply bind_quiet; [|done].
  apply CreateSpaces_names_quiet.
Qed.

Lemma DeleteSpaces_quiet : quiet (spacemgmt.DeleteSpaces m).
Proof using Hpeek.
  unfold spacemgmt.DeleteSpaces.
  apply bind_quiet; [by apply (perform_quiet spacemgmt.CfgSpaces)|].
  intros cfgs. induction cfgs as [|input rest IH]; simpl; [apply ret_quiet|].
  destruct (spacemgmt.EnableDeleteSpaces input); simpl; [|done].
  apply bind_quiet; [by apply (perform_quiet (spacemgmt.OrgMgrFindOrg _))|].
  intros org. apply bind_quiet.
  { by apply (perform_quiet (spacemgmt.ClientListSpacesByQuery _)). }
  intros spaces. apply bind_quiet; [|done]. apply DeleteSpaces_each_quiet.
Qed.
End SpaceDryRun.

(** X14: under dry-run the space manager changes no space: [UpdateSpaces],
    [CreateSpaces] and [DeleteSpaces] issue no update, no create and no
    delete call, whatever is configured and whatever the collaborators
    answer. *)
Theorem space_dry_run_never_mutates (m : spacemgmt.DefaultManager)
    (h : list spacemgmt.call) :
  spacemgmt.Peek m = true →
  spacemgmt.noMutation (tissued (spacemgmt.UpdateSpaces m) h) ∧
  spacemgmt.noMutation (tissued (spacemgmt.CreateSpaces m) h) ∧
  spacemgmt.noMutation (tissued (spacemgmt.DeleteSpaces m) h).
Proof.
  intros Hpeek. split; [|split].
  - destruct (UpdateSpaces_quiet m Hpeek h) as (new & E & H).
    by rewrite (tissued_app _ _ _ E).
  - destruct (CreateSpaces_quiet m Hpeek h) as (new & E & H).
    by rewrite (tissued_app _ _ _ E).
  - destruct (DeleteSpaces_quiet m Hpeek h) as (new & E & H).
    by rewrite (tissued_app _ _ _ E).
Qed.

Lemma space_dry_run_never_mutates_witness :
  spacemgmt.noMutation (tissued (spacemgmt.UpdateSpaces (demoSpaceManager true)) []) ∧
  spacemgmt.noMutation (tissued (spacemgmt.CreateSpaces (demoSpaceManager true)) []) ∧
  spacemgmt.noMutation (tissued (spacemgmt.DeleteSpaces (demoSpaceManager true)) []).
Proof. apply (space_dry_run_never_mutates (demoSpaceManager true) []). reflexivity. Defined.

(** X15: [DeleteSpaces] skips the orgs that have not opted in: they have
    no influence on what it does, and when no org has opted in it makes no
    call after reading the configuration and returns without error. *)
Theorem DeleteSpaces_skips_not_opted_in (m : spacemgmt.DefaultManager)
    (configSpaceList : list spacemgmt.Spaces) (h : list spacemgmt.call) :
  spacemgmt.DeleteSpaces_loop m configSpaceList h
  = spacemgmt.DeleteSpaces_loop m
      (filter (λ input, spacemgmt.EnableDeleteSpaces input = true) configSpaceList) h ∧
  (Forall (λ input, spacemgmt.EnableDeleteSpaces input = false) configSpaceList →
   spacemgmt.DeleteSpaces_loop m configSpaceList h = (Ok tt, h)).
Proof.
  split.
  - revert h. induction configSpaceList as [|input rest IH]; intros h; [done|].
    rewrite filter_cons. case_decide as Hflag.
    + simpl. rewrite Hflag. simpl.
      rewrite !trun_bind. destruct (tperform _ _ h) as [[org|e] h1]; [|done].
      rewrite !trun_bind. destruct (spacemgmt.ListSpaces _ _ h1) as [[spaces|e] h2]; [|done].
      rewrite !trun_bind.
      destruct (spacemgmt.DeleteSpaces_each _ _ _ h2) as [[[]|e] h3]; [apply IH | done].
    + apply not_true_is_false in Hflag. simpl. rewrite Hflag. apply IH.
  - intros Hall. induction Hall as [|input rest Hflag _ IH]; [done|].
    simpl. by rewrite Hflag.
Qed.

Lemma DeleteSpaces_skips_not_opted_in_witness :
  spacemgmt.DeleteSpaces_loop (demoSpaceManager false)
    [{| spacemgmt.Spaces_Org := "test-org"; spacemgmt.Spaces_Spaces := [];
        spacemgmt.EnableDeleteSpaces := false |}] []
  = (Ok tt, []).
Proof.
  apply (DeleteSpaces_skips_not_opted_in (demoSpaceManager false)).
  by repeat constructor.
Defined.




Lemma spacemgmt_FindSpace_run m orgName spaceName h r h' :
  spacemgmt.FindSpace m orgName spaceName h = (r, h') →
  (∃ new, h' = h ++ new ∧ Forall (λ c, spacemgmt.isMutation c = false) new) ∧
  ∀ sp, r = Ok sp → Space_Name sp = spaceName.
Proof.
  unfold spacemgmt.FindSpace, spacemgmt.ListSpaces. rewrite trun_bind.
  unfold tperform at 1.
  destruct (spacemgmt.Remote m h _) as [g|e].
  - rewrite trun_bind. unfold tperform at 1.
    destruct (spacemgmt.Remote m _ _) as [spaces|e].
    + destruct (space.firstNamed spaces spaceName) as [sp|] eqn:Hfirst.
      * intros [= <- <-]. split.
        -- eexists. rewrite <- app_assoc. split; [done|]. by repeat constructor.
        -- intros sp' [= <-].
           by destruct (firstNamed_Some _ _ _ Hfirst) as (? & ? & _ & ? & _).
      * destruct (spacemgmt.Peek m); intros [= <- <-]; (split; [|by intros sp' [= <-]]);
          eexists; rewrite <- app_assoc; (split; [done|]); by repeat constructor.
    + intros [= <- <-]. split; [|done].
      eexists. rewrite <- app_assoc. split; [done|]. by repeat constructor.
  - intros [= <- <-]. split; [|done]. eexists. split; [done|]. by repeat constructor.
Qed.

Lemma temits_bind_with {C A B} (Q : list C → Prop) (P : A → Prop)
    (m : TM C A) (f : A → TM C B) :
  Q [] → (∀ a b, Q a → Q b → Q (a ++ b)) →
  (∀ h, ∃ new, (m h).2 = h ++ new ∧ Q new ∧ ∀ a, (m h).1 = Ok a → P a) →
  (∀ a, P a → temits Q (f a)) →
  temits Q (m ≫= f).
Proof.
  intros Hnil Happ Hm Hf h. rewrite trun_bind. destruct (Hm h) as (n1 & E1 & Q1 & HP).
  destruct (m h) as [[a|e] h1]; simpl in *; [|by exists n1].
  destruct (Hf a (HP a eq_refl) h1) as (n2 & E2 & Q2). exists (n1 ++ n2).
  rewrite E2, E1, app_assoc. auto.
Qed.

Lemma UpdateSpaces_loop_configured m all spaceConfigs :
  spaceConfigs ⊆ all →
  temits (updatesAsConfigured all) (spacemgmt.UpdateSpaces_loop m spaceConfigs).
Proof.
  assert (updatesAsConfigured all []) as Hnil by constructor.
  assert (∀ a b, updatesAsConfigured all a → updatesAsConfigured all b →
                 updatesAsConfigured all (a ++ b)) as Happ
    by (intros; by apply Forall_app).
  induction spaceConfigs as [|input rest IH]; intros Hsub; simpl.
  { by apply temits_ret. }
  assert (rest ⊆ all) as Hrest by set_solver.
  assert (input ∈ all) as Hin by set_solver.
  apply (temits_bind_with _
           (λ found, ∀ sp, found = Ok sp →
                           Space_Name sp = spacemgmt.SpaceConfig_Space input));
    [done | done | |].
  - intros h. unfold tattempt.
    destruct (spacemgmt.FindSpace m _ _ h) as [found h1] eqn:Hfind.
    destruct (spacemgmt_FindSpace_run _ _ _ _ _ _ Hfind) as [(n1 & -> & Hn1) Hname].
    exists n1. split; [done|]. split.
    + eapply Forall_impl; [exact Hn1|]. intros c Hc g n ssh og ->. done.
    + intros a [= <-]. exact Hname.
  - intros [sp|e] Hname; [|by apply IH]. specialize (Hname sp eq_refl).
    apply temits_bind; [done | done | | intros; by apply IH].
    case_bool_decide; [|by apply temits_ret].
    unfold spacemgmt.UpdateSpaceSSH. destruct (spacemgmt.Peek m); [by apply temits_ret|].
    apply (temits_perform _ (spacemgmt.Remote m) (spacemgmt.ClientUpdateSpace _ _ _ _)).
    repeat constructor. intros g n ssh og [= <- <- <- <-]. by exists input.
Qed.

Lemma UpdateSpaces_loop_tolerant m spaceConfigs h :
  (∀ h' guid name ssh orgGUID,
     spacemgmt.Remote m h' (spacemgmt.ClientUpdateSpace guid name ssh orgGUID) = Ok tt) →
  (spacemgmt.UpdateSpaces_loop m spaceConfigs h).1 = Ok tt.
Proof.
  intros Hw. revert h. induction spaceConfigs as [|input rest IH]; intros h; simpl.
  { done. }
  rewrite trun_bind. unfold tattempt.
  destruct (spacemgmt.FindSpace m _ _ h) as [[sp|e] h1]; [|apply IH].
  rewrite trun_bind. case_bool_decide; [|apply IH].
  unfold spacemgmt.UpdateSpaceSSH. destruct (spacemgmt.Peek m); [apply IH|].
  unfold tperform. rewrite Hw. apply IH.
Qed.

(** X17: [UpdateSpaces] goes on past every space it cannot find: when no
    update of a space fails, its loop returns without error whatever the
    lookups answer.  And every update it issues sets the SSH flag to the
    value that one of the configurations asks for a space of that very
    name. *)
Theorem UpdateSpaces_tolerant_and_as_configured (m : spacemgmt.DefaultManager)
    (spaceConfigs : list spacemgmt.SpaceConfig) (h : list spacemgmt.call) :
  ((∀ h' guid name ssh orgGUID,
      spacemgmt.Remote m h' (spacemgmt.ClientUpdateSpace guid name ssh orgGUID) = Ok tt) →
   (spacemgmt.UpdateSpaces_loop m spaceConfigs h).1 = Ok tt) ∧
  updatesAsConfigured spaceConfigs (tissued (spacemgmt.UpdateSpaces_loop m spaceConfigs) h).
Proof.
  split; [apply UpdateSpaces_loop_tolerant|].
  destruct (UpdateSpaces_loop_configured m spaceConfigs spaceConfigs) with (h := h)
    as (new & E & H); [done|].
  by rewrite (tissued_app _ _ _ E).
Qed.

Lemma UpdateSpaces_tolerant_and_as_configured_witness :
  (spacemgmt.UpdateSpaces_loop (demoSpaceManager false)
     [{| spacemgmt.SpaceConfig_Org := "test-org";
         spacemgmt.SpaceConfig_Space := "missing";
         spacemgmt.SpaceConfig_AllowSSH := true |};
      {| spacemgmt.SpaceConfig_Org := "test-org";
         spacemgmt.SpaceConfig_Space := "dev";
         spacemgmt.SpaceConfig_AllowSSH := true |}] []).1 = Ok tt.
Proof.
  apply (UpdateSpaces_tolerant_and_as_configured (demoSpaceManager false)).
  intros. reflexivity.
Defined.



(* ------------------------------------------------------------------ *)
(** ** The directory key of a provisioned user *)

Lemma SyncSamlUsers_loop_grows m users roleUsers uaaUsers input :
  emits anyCalls (SyncSamlUsers_loop m users roleUsers uaaUsers input).
Proof. apply emits_SyncSamlUsers_loop; auto using AddUser_grows; done. Qed.

(** X19: a reconciliation changes the directory under the configured
    spellings of its federated users only.  The directory is looked up under
    the case-folded name but written under the name as configured: so for a
    federated user whose folded name is neither in the directory nor itself a
    configured spelling, the folded name is still missing after the
    reconciliation, and the federated step of any reconciliation that follows
    and names that user starts by provisioning the user again. *)
Theorem provisioned_user_not_found_again (m : DefaultManager) (uaaUsers : loc)
    (input : UpdateUsersInput) (s : state) :
  (∀ k, k ∉ SamlUsers input →
        mapAt (SyncUsers m uaaUsers input s).2 uaaUsers !! k = mapAt s uaaUsers !! k) ∧
  (∀ userEmail,
     mapAt s uaaUsers !! ToLower userEmail = None →
     ToLower userEmail ∉ SamlUsers input →
     ∀ rest roleUsers input',
       ∃ more,
         issued (SyncSamlUsers_loop m (userEmail :: rest) roleUsers uaaUsers input')
           (SyncUsers m uaaUsers input s).2
         = createCallOf m userEmail :: more).
Proof.
  assert (∀ k, k ∉ SamlUsers input →
               mapAt (SyncUsers m uaaUsers input s).2 uaaUsers !! k
               = mapAt s uaaUsers !! k) as Hkeys.
  { intros k Hk. destruct (SyncUsers_effect m uaaUsers input s) as (_ & _ & _ & Hdir).
    destruct (Hdir k) as [H | (Hin & _)]; [done | contradiction]. }
  split; [done|].
  intros userEmail Hnone Hfold rest roleUsers input'.
  set (s' := (SyncUsers m uaaUsers input s).2).
  assert (mapAt s' uaaUsers !! ToLower userEmail = None) as Hstill
    by (unfold s'; by rewrite Hkeys).
  assert (∃ more,
            calls (SyncSamlUsers_loop m (userEmail :: rest) roleUsers uaaUsers input' s').2
            = calls s' ++ createCallOf m userEmail :: more) as [more E];
    [|exists more; by apply issued_app].
  simpl. rewrite run_bind. unfold readMap at 1. simpl. rewrite Hstill.
  rewrite run_bind. unfold attempt. rewrite run_perform.
  set (s1 := {| calls := calls s' ++ [createCallOf m userEmail]; heap := heap s' |}).
  fold (createCallOf m userEmail). fold s1.
  assert (∀ (k : M (gmap string string)),
            emits anyCalls k →
            ∃ more, calls (k s1).2 = calls s' ++ createCallOf m userEmail :: more) as Hk.
  { intros k Hemits. destruct (Hemits s1) as (n & En & _). exists n.
    rewrite En. simpl. by rewrite <- app_assoc. }
  destruct (Remote m (calls s') (createCallOf m userEmail)) as [[]|e].
  - apply Hk. apply emits_bind; [done | done | by apply emits_writeEntry |].
    intros _. apply emits_bind; [done | done | |].
    + apply emits_samlAddOrMark; [done | done |]. apply AddUser_grows.
    + intros ru. apply SyncSamlUsers_loop_grows.
  - apply Hk, SyncSamlUsers_loop_grows.
Qed.

Lemma provisioned_user_not_found_again_witness :
  ∃ more,
    issued (SyncSamlUsers_loop (tableManager zoeSpace false) ["Zoe@x"] ∅ 0
              (devBinding [] ["Zoe@x"] false))
      (SyncUsers (tableManager zoeSpace false) 0 (devBinding [] ["Zoe@x"] false)
         (loaded zoeSpace)).2
    = createCallOf (tableManager zoeSpace false) "Zoe@x" :: more.
Proof.
  destruct (provisioned_user_not_found_again (tableManager zoeSpace false) 0
              (devBinding [] ["Zoe@x"] false) (loaded zoeSpace)) as [_ H].
  apply (H "Zoe@x"); [reflexivity|].
  intros Hin. apply list_elem_of_singleton in Hin. discriminate.
Defined.

(* ------------------------------------------------------------------ *)
(** ** The role holders the cleanup keeps *)

Lemma listedUsers_app w h a b :
  listedUsers w h (a ++ b) = listedUsers w h a ++ listedUsers w (h ++ a) b.
Proof.
  revert h. induction a as [|c a IH]; intros h; simpl.
  - by rewrite app_nil_r.
  - by rewrite IH, <- !app_assoc.
Qed.

Lemma listedUsers_no_listing w h new :
  Forall (λ c, ∀ r g, c ≠ ClientList r g) new → listedUsers w h new = [].
Proof.
  intros H. revert h. induction H as [|c new Hc _ IH]; intros h; simpl; [done|].
  rewrite IH, app_nil_r. unfold roleHolders.
  destruct c; try done. by destruct (Hc r guid).
Qed.

Lemma foldedNames_app a b : foldedNames (a ++ b) = foldedNames a ++ foldedNames b.
Proof. apply fmap_app. Qed.

Lemma collects_ret m base : collects m base (mret base).
Proof.
  intros s. exists []. split; [by rewrite app_nil_r|].
  intros userMap [= <-] x. split; [by left | intros [H | H]; [done | inversion H]].
Qed.

Lemma collects_wrap m base k msg : collects m base k → collects m base (wrap k msg).
Proof.
  intros Hk s. destruct (Hk s) as (new & E & H). exists new. unfold wrap.
  destruct (k s) as [[a|e] s1]; [by split | split; [done | by intros ?]].
Qed.

Lemma collects_ListRole r m guid : collects m ∅ (ListRole r m guid).
Proof.
  intros s. unfold ListRole. destruct (Peek m && Contains guid (dryRunMarker r)).
  - apply collects_ret.
  - rewrite run_bind, run_perform. exists [ClientList r guid]. simpl.
    unfold roleHolders.
    destruct (Remote m (calls s) (ClientList r guid)) as [users|e]; simpl;
      (split; [done|]); [|by intros ?].
    intros userMap [= <-] x. rewrite app_nil_r, userListToMap_keys, lookup_empty.
    unfold foldedNames. rewrite list_elem_of_fmap. split.
    + intros (u & Hu & <-). right. eauto.
    + intros [[? ?] | (u & -> & Hu)]; [done | eauto].
Qed.

(** A listing, then the rest on the map with the listing's entries. *)
Lemma collects_step m base (a : M (gmap string string)) f :
  collects m ∅ a →
  (∀ listing, collects m (appendToMap base listing) (f listing)) →
  collects m base (a ≫= f).
Proof.
  intros Ha Hf s. rewrite run_bind. destruct (Ha s) as (n1 & E1 & H1).
  destruct (a s) as [[listing|e] s1]; simpl in *; [|exists n1; by split].
  destruct (Hf listing s1) as (n2 & E2 & H2). exists (n1 ++ n2).
  split; [by rewrite E2, E1, app_assoc|].
  intros userMap Hok x. rewrite (H2 userMap Hok x), E1.
  rewrite listedUsers_app, foldedNames_app, elem_of_app.
  unfold appendToMap. rewrite lookup_union_is_Some, (H1 listing eq_refl x), lookup_empty.
  assert (¬ is_Some (@None string)) by (by intros [? ?]). tauto.
Qed.

(** A step that lists no role holders, then the rest. *)
Lemma collects_after m base {A} (a : M A) f :
  emits (Forall (λ c, ∀ r g, c ≠ ClientList r g)) a →
  (∀ x, collects m base (f x)) →
  collects m base (a ≫= f).
Proof.
  intros Ha Hf s. rewrite run_bind. destruct (Ha s) as (n1 & E1 & H1).
  destruct (a s) as [[x|e] s1]; simpl in *; [|exists n1; by split].
  destruct (Hf x s1) as (n2 & E2 & H2). exists (n1 ++ n2).
  split; [by rewrite E2, E1, app_assoc|].
  intros userMap Hok y. rewrite (H2 userMap Hok y), E1.
  by rewrite listedUsers_app, (listedUsers_no_listing _ _ _ H1).
Qed.

Lemma collects_usersInOrgRoles_spaces m orgName spaces userMap :
  collects m userMap (usersInOrgRoles_spaces m orgName spaces userMap).
Proof.
  revert userMap. induction spaces as [|sp rest IH]; intros userMap; simpl.
  - apply collects_ret.
  - repeat (apply collects_step; [apply collects_wrap, collects_ListRole | intros ?]).
    apply IH.
Qed.

Lemma collects_usersInOrgRoles m orgName orgGUID :
  collects m ∅ (usersInOrgRoles m orgName orgGUID).
Proof.
  unfold usersInOrgRoles.
  repeat (apply collects_step; [apply collects_wrap, collects_ListRole | intros ?]).
  apply collects_after.
  - apply emits_wrap, (emits_perform _ _ (ClientListSpacesByQuery _)).
    by repeat constructor.
  - intros spaces. apply collects_usersInOrgRoles_spaces.
Qed.

(** X20: the map that [usersInOrgRoles] returns has as its keys exactly
    the case-folded names of the users that the role listings it made
    answered. *)
Theorem usersInOrgRoles_keys_are_listed (m : DefaultManager)
    (orgName orgGUID : string) (s : state) (userMap : gmap string string) :
  (usersInOrgRoles m orgName orgGUID s).1 = Ok userMap →
  ∀ x, is_Some (userMap !! x)
       ↔ x ∈ foldedNames (listedUsers (Remote m) (calls s)
                            (issued (usersInOrgRoles m orgName orgGUID) s)).
Proof.
  intros Hok x. destruct (collects_usersInOrgRoles m orgName orgGUID s) as (new & E & H).
  rewrite (issued_app _ _ _ E), (H userMap Hok x), lookup_empty.
  split; [intros [[? ?] | ?]; done | by right].
Qed.

Lemma usersInOrgRoles_keys_are_listed_witness :
  is_Some (({["erin" := "erin-guid"]} : gmap string string) !! "erin")
  ↔ "erin" ∈ foldedNames
               (listedUsers (Remote (tableManager developerOnly false)) []
                  (issued (usersInOrgRoles (tableManager developerOnly false)
                             "test-org" "test-org-guid") initial)).
Proof.
  apply (usersInOrgRoles_keys_are_listed (tableManager developerOnly false)
           "test-org" "test-org-guid" initial).
  vm_compute. reflexivity.
Defined.

Lemma cleanupOrgUsers_loop_outside m input org orgUsers usersInRoles :
  emits (removesOutside usersInRoles)
    (cleanupOrgUsers_loop m input org orgUsers usersInRoles).
Proof.
  induction orgUsers as [|u rest IH]; simpl.
  - apply emits_ret. constructor.
  - destruct (usersInRoles !! _) eqn:Hu; [done|]. destruct (Peek m); [done|].
    apply emits_bind; [constructor | intros; by apply Forall_app | | done].
    apply emits_wrap, (emits_perform _ _ (ClientRemoveOrgUserByUsername _ _)).
    repeat constructor. eauto.
Qed.

(** X21: the cleanup never removes from the org a member whose name is,
    up to case, the name of a user that one of the role listings of the same
    cleanup answered. *)
Theorem cleanupOrgUsers_keeps_role_holders (m : DefaultManager) (input : OrgConfig)
    (s : state) (g userName : string) :
  ClientRemoveOrgUserByUsername g userName ∈ issued (cleanupOrgUsers m input) s →
  ToLower userName
  ∉ foldedNames (listedUsers (Remote m) (calls s) (issued (cleanupOrgUsers m input) s)).
Proof.
  set (quiet := Forall (λ c, (∀ r g, c ≠ ClientList r g)
                             ∧ ∀ g n, c ≠ ClientRemoveOrgUserByUsername g n)).
  assert (∀ a b, quiet a → quiet b → quiet (a ++ b)) as quiet_app
    by (intros; by apply Forall_app).
  assert (∀ new, quiet new → Forall (λ c, ∀ r g, c ≠ ClientList r g) new) as quiet_list
    by (intros new H; eapply Forall_impl; [exact H | by intros c [? ?]]).
  assert (∀ new, quiet new → ∀ g n, ClientRemoveOrgUserByUsername g n ∉ new) as quiet_remove.
  { intros new H g' n Hin. unfold quiet in H. rewrite Forall_forall in H.
    destruct (H _ Hin) as [_ H']. by destruct (H' g' n). }
  assert (∃ pre listings removes usersInRoles,
            calls (cleanupOrgUsers m input s).2 = calls s ++ pre ++ listings ++ removes
            ∧ quiet pre
            ∧ Forall (λ c, ∀ g n, c ≠ ClientRemoveOrgUserByUsername g n) listings
            ∧ removesOutside usersInRoles removes
            ∧ (removes ≠ [] →
               ∀ x, is_Some (usersInRoles !! x)
                    ↔ x ∈ foldedNames (listedUsers (Remote m) (calls s ++ pre) listings)))
    as (pre & listings & removes & usersInRoles & E & Hpre & Hlist & Hrem & Hkeys).
  { unfold cleanupOrgUsers. rewrite run_bind, run_perform.
    destruct (Remote m (calls s) (OrgMgrFindOrg (OC_Org input))) as [org|e]; cycle 1.
    { exists [OrgMgrFindOrg (OC_Org input)], [], [], ∅. simpl.
      split; [done|]. split; [by repeat constructor|]. by repeat constructor. }
    rewrite run_bind. unfold wrap at 1. rewrite run_perform. simpl.
    set (pre := [OrgMgrFindOrg (OC_Org input); ClientListOrgUsers (Org_Guid org)]).
    assert (quiet pre) as Hpre by (by repeat constructor).
    destruct (Remote m _ (ClientListOrgUsers (Org_Guid org))) as [orgUsers|e]; cycle 1.
    { exists pre, [], [], ∅. simpl. rewrite <- app_assoc.
      split; [done|]. split; [done|]. by repeat constructor. }
    rewrite run_bind.
    set (s2 := {| calls := (calls s ++ [OrgMgrFindOrg (OC_Org input)])
                           ++ [ClientListOrgUsers (Org_Guid org)];
                  heap := heap s |}).
    assert (calls s2 = calls s ++ pre) as E2 by (simpl; by rewrite <- app_assoc).
    destruct (collects_usersInOrgRoles m (Org_Name org) (Org_Guid org) s2)
      as (listings & E3 & Hkeys).
    destruct (emits_usersInOrgRoles
                (Forall (λ c, ∀ g n, c ≠ ClientRemoveOrgUserByUsername g n))
                (Forall_nil_2 _) (λ a b Ha Hb, proj2 (Forall_app _ a b) (conj Ha Hb))
                m (Org_Name org) (Org_Guid org)) with (s := s2) as (listings' & E3' & Hlist).
    { intros. by repeat constructor. }
    { intros. by repeat constructor. }
    rewrite E3 in E3'. apply app_inv_head in E3' as <-.
    rewrite E2 in E3, Hkeys. clearbody s2.
    unfold wrap at 1.
    destruct (usersInOrgRoles m (Org_Name org) (Org_Guid org) s2)
      as [[usersInRoles|e] s3]; simpl in E3, Hkeys; cycle 1.
    { exists pre, listings, [], ∅. simpl. rewrite app_nil_r, E3, <- app_assoc.
      split; [done|]. split; [done|]. split; [done|]. split; [constructor | done]. }
    destruct (cleanupOrgUsers_loop_outside m input org orgUsers usersInRoles s3)
      as (removes & E4 & Hrem).
    exists pre, listings, removes, usersInRoles.
    split; [by rewrite E4, E3, <- !app_assoc|].
    repeat (split; [done|]). intros _ x.
    rewrite (Hkeys usersInRoles eq_refl x), lookup_empty.
    assert (¬ is_Some (@None string)) by (by intros [? ?]). tauto. }
  rewrite (issued_app _ _ _ E). intros Hin.
  assert (ClientRemoveOrgUserByUsername g userName ∈ removes) as Hin'.
  { apply elem_of_app in Hin as [Hin | Hin]; [by destruct (quiet_remove _ Hpre g userName)|].
    apply elem_of_app in Hin as [Hin | Hin]; [|done].
    rewrite Forall_forall in Hlist. by destruct (Hlist _ Hin g userName). }
  rewrite !listedUsers_app, (listedUsers_no_listing _ _ pre (quiet_list _ Hpre)).
  rewrite (listedUsers_no_listing _ _ removes), app_nil_r; cycle 1.
  { eapply Forall_impl; [exact Hrem|]. by intros c (g' & n & -> & _) r g''. }
  simpl. rewrite <- Hkeys by (intros ->; inversion Hin').
  unfold removesOutside in Hrem. rewrite Forall_forall in Hrem.
  destruct (Hrem _ Hin') as (g' & n & [= <- <-] & Hnone). rewrite Hnone.
  by intros [? ?].
Qed.

Lemma cleanupOrgUsers_keeps_role_holders_witness :
  ToLower "dave"
  ∉ foldedNames
      (listedUsers (Remote (tableManager developerOnly false)) []
         (issued (cleanupOrgUsers (tableManager developerOnly false)
                    (orgConfig "test-org" true)) initial)).
Proof.
  apply (cleanupOrgUsers_keeps_role_holders (tableManager developerOnly false)
           (orgConfig "test-org" true) initial "test-org-guid" "dave").
  replace (issued (cleanupOrgUsers (tableManager developerOnly false)
                     (orgConfig "test-org" true)) initial)
    with [OrgMgrFindOrg "test-org";
          ClientListOrgUsers "test-org-guid";
          ClientList OrgAuditor "test-org-guid";
          ClientList OrgManager "test-org-guid";
          ClientList OrgBillingManager "test-org-guid";
          ClientListSpacesByQuery "test-org-guid";
          ClientList SpaceAuditor "dev-guid";
          ClientList SpaceAuditor "dev-guid";
          ClientList SpaceManager "dev-guid";
          ClientRemoveOrgUserByUsername "test-org-guid" "dave"]
    by (vm_compute; reflexivity).
  do 9 apply list_elem_of_further. apply list_elem_of_here.
Defined.
